(** * uncompyle6 command-line front end: path reduction and batch dispatch

    A shallow embedding of [uncompyle6/bin/uncompile.py] (function
    [main_bin] from the point where the option loop has finished, and its
    nested [process_func]), together with the parts of the Python standard
    library it calls ([os.path.commonprefix], [os.path.dirname],
    [os.path.join], [min], [max], string slicing and bounded queues).

    Paths are POSIX paths: [os.sep] is ["/"]. Strings are the byte
    strings of the Python 2 the file is written for, compared byte by
    byte. *)

From Stdlib Require Import Ascii String NArith ZArith Lia.
From stdpp Require Import base list relations strings gmap.

Local Open Scope list_scope.

(** ** Python strings *)

Module PyStr.

  (** A Python [str] as the sequence of its characters. *)
Definition str := list ascii.

Definition lit (s : string) : str := list_ascii_of_string s.

  (** [ord(c)] *)
Definition ord (c : ascii) : N := N_of_ascii c.

  (** [a < b] on strings: lexicographic on code points, a proper prefix
      being smaller. *)
Fixpoint str_lt (a b : str) : bool :=
    match a, b with
    | [], [] => false
    | [], _ :: _ => true
    | _ :: _, [] => false
    | x :: a', y :: b' =>
        if (ord x <? ord y)%N then true
        else if (ord y <? ord x)%N then false
        else str_lt a' b'
    end.

  (** [a <= b], that is [not (b < a)] for the total order on strings. *)
Definition str_le (a b : str) : bool := negb (str_lt b a).

  (** [min(m)] for a non-empty [m]: the first smallest element.
      [None] stands for the [ValueError] on an empty sequence. *)
Definition py_min (m : list str) : option str :=
    match m with
    | [] => None
    | x :: r => Some (fold_left (fun best y => if str_lt y best then y else best) r x)
    end.

  (** [max(m)]: the first largest element. *)
Definition py_max (m : list str) : option str :=
    match m with
    | [] => None
    | x :: r => Some (fold_left (fun best y => if str_lt best y then y else best) r x)
    end.

  (** [bool(s)]: a string is true when it is not empty. *)
Definition truthy {A} (s : list A) : bool :=
    match s with [] => false | _ :: _ => true end.

  (** [s[-1:]]: the last character as a string, empty for the empty string. *)
Definition slice_last (s : str) : str := drop (length s - 1) s.

  (** [s[n:]] *)
Definition slice_from (n : nat) (s : str) : str := drop n s.

  (** [s.startswith(t)] *)
Fixpoint startswith (s t : str) {struct t} : bool :=
    match t, s with
    | [], _ => true
    | _ :: _, [] => false
    | y :: t', x :: s' => if decide (x = y) then startswith s' t' else false
    end.

  (** [s.endswith(t)] *)
Definition endswith (s t : str) : bool := startswith (rev s) (rev t).

End PyStr.
Import PyStr.

(** ** [posixpath] and [genericpath] *)

Module PosixPath.

Definition sep_char : ascii := "/"%char.

  (** [os.sep] *)
Definition sep : str := [sep_char].

Definition is_sep (c : ascii) : bool := bool_decide (c = sep_char).

  (** The loop of [commonprefix]:
<<
      for i, c in enumerate(s1):
          if c != s2[i]:
              return s1[:i]
      return s1
>>
      [None] stands for the [IndexError] of [s2[i]] past the end of [s2]. *)
Fixpoint commonprefix_loop (s1 s2 : str) : option str :=
    match s1 with
    | [] => Some []
    | c :: s1' =>
        match s2 with
        | [] => None
        | d :: s2' =>
            if decide (c = d)
            then match commonprefix_loop s1' s2' with
                 | Some p => Some (c :: p)
                 | None => None
                 end
            else Some []
        end
    end.

  (** [os.path.commonprefix(m)] *)
Definition commonprefix (m : list str) : option str :=
    match py_min m, py_max m with
    | Some s1, Some s2 => commonprefix_loop s1 s2
    | _, _ => Some []
    end.

  (** [p.rfind("/") + 1] *)
Fixpoint rfind_succ (p : str) : nat :=
    match p with
    | [] => 0
    | c :: r =>
        match rfind_succ r with
        | 0 => if is_sep c then 1 else 0
        | S k => S (S k)
        end
    end.

  (** [s.rstrip("/")] *)
Fixpoint rstrip (s : str) : str :=
    match s with
    | [] => []
    | c :: r =>
        match rstrip r with
        | [] => if is_sep c then [] else [c]
        | r' => c :: r'
        end
    end.

  (** [os.path.dirname(p)]:
<<
      i = p.rfind(sep) + 1
      head = p[:i]
      if head and head != sep*len(head):
          head = head.rstrip(sep)
      return head
>> *)
Definition dirname (p : str) : str :=
    let i := rfind_succ p in
    let head := take i p in
    if truthy head && negb (forallb is_sep head) then rstrip head else head.

  (** [os.path.basename(p)]: [p[i:]] for the same [i]. *)
Definition basename (p : str) : str := drop (rfind_succ p) p.

  (** [os.path.join(a, b)] *)
Definition join (a b : str) : str :=
    if startswith b sep then b
    else if negb (truthy a) || endswith a sep then a ++ b
    else a ++ sep ++ b.

End PosixPath.
Import PosixPath.

(** ** PathReducer: lines 179-184 of [main_bin]
<<
    src_base = os.path.commonprefix(pyc_paths)
    if src_base[-1:] != os.sep:
        src_base = os.path.dirname(src_base)
    if src_base:
        sb_len = len(os.path.join(src_base, ""))
        pyc_paths = [f[sb_len:] for f in pyc_paths]
>>
    The result is the pair of [src_base] and the new [pyc_paths]. *)

Definition path_reduce (pyc_paths : list str) : option (str * list str) :=
  match commonprefix pyc_paths with
  | None => None
  | Some src_base =>
      let src_base :=
        if bool_decide (slice_last src_base ≠ sep) then dirname src_base
        else src_base in
      if truthy src_base
      then
        let sb_len := length (join src_base []) in
        Some (src_base, map (slice_from sb_len) pyc_paths)
      else Some (src_base, pyc_paths)
  end.

(** The value of [src_base] after lines 179-181. *)
Definition base_of (cp : str) : str :=
  if bool_decide (slice_last cp ≠ sep) then dirname cp else cp.

(** The prefix with its trailing separator, whose length is cut from every
    path. *)
Definition prefix_with_sep (src_base : str) : str := join src_base [].

(** Putting a relative path back onto the prefix. *)
Definition rejoin (src_base : str) (rel : str) : str :=
  prefix_with_sep src_base ++ rel.

(** ** Counters, exceptions and the traced result of a run *)

(** The 4-tuple [(tot_files, okay_files, failed_files, verify_failed_files)]. *)
Definition Counters := (Z * Z * Z * Z)%type.

Definition czero : Counters := (0, 0, 0, 0)%Z.

(** Component-wise [+=] of the four counters. *)
Definition cadd (a b : Counters) : Counters :=
  match a, b with
  | (t1, o1, f1, v1), (t2, o2, f2, v2) => (t1 + t2, o1 + o2, f1 + f2, v1 + v2)%Z
  end.

Arguments cadd : simpl never.

Definition csum (l : list Counters) : Counters := foldr cadd czero l.

(** The exceptions the dispatch layer distinguishes. *)
Inductive exn :=
| ImportError (msg : str)
| KeyboardInterrupt
| VerifyCmpError
| Empty
| OSError
| IndexError
| OtherError.

(** What a call of an external routine does: return or raise. *)
Inductive outcome (A : Type) :=
| Ret (a : A)
| Raise (e : exn).
Arguments Ret {A} a.
Arguments Raise {A} e.

(** What is observable of a run. *)
Inductive event :=
| StderrWrite (s : str)          (* sys.stderr.write(s) *)
| Print (s : str)                (* print(s) *)
| PrintTimestamp                 (* print(time.strftime(timestampfmt)) *)
| PrintSummary (c : Counters)    (* print("# decompiled %i files: ..." % c) *)
| CallMain (compiled_files source_files : list str). (* a call of main(...) *)

(** How a piece of [main_bin] ends: it falls through with a value, calls
    [sys.exit], lets an exception escape, or is still waiting on a
    blocking call when the schedule at hand ends. *)
Inductive result (A : Type) :=
| Ok (a : A)
| Exit (code : Z)
| Exc (e : exn)
| Waiting.
Arguments Ok {A} a.
Arguments Exit {A} code.
Arguments Exc {A} e.
Arguments Waiting {A}.

(** A computation: the events it produced, and how it ended. *)
Definition M (A : Type) : Type := (list event * result A)%type.

Definition m_ret {A} (a : A) : M A := ([], Ok a).

Definition m_bind {A B} (m : M A) (k : A → M B) : M B :=
  match m with
  | (t, Ok a) => let '(t', r) := k a in (t ++ t', r)
  | (t, Exit c) => (t, Exit c)
  | (t, Exc e) => (t, Exc e)
  | (t, Waiting) => (t, Waiting)
  end.

Notation "'do' x <- m 'in' k" := (m_bind m (fun x => k))
  (at level 10, x pattern, m at level 100, k at level 200).
Notation "m ;;; k" := (m_bind m (fun _ => k))
  (at level 100, k at level 200, right associativity).

Definition emit (ev : event) : M unit := ([ev], Ok tt).
Definition sys_exit {A} (code : Z) : M A := ([], Exit code).
Definition raise {A} (e : exn) : M A := ([], Exc e).
Definition waiting {A} : M A := ([], Waiting).

(** [try: m except ...: handler], the handler deciding per exception. *)
Definition try_except {A} (m : M A) (handler : exn → M A) : M A :=
  match m with
  | (t, Exc e) => let '(t', r) := handler e in (t ++ t', r)
  | _ => m
  end.

(** [when b m]: [if b: m]. *)
Definition when (b : bool) (m : M unit) : M unit := if b then m else m_ret tt.

(** The usage text [__doc__], with [program] substituted. *)
Definition __doc__ : str := lit "
Usage:
  uncompyle6 [OPTIONS]... [ FILE | DIR]...
  uncompyle6 [--help | -h | --V | --version]

Examples:
  uncompyle6      foo.pyc bar.pyc       # decompile foo.pyc, bar.pyc to stdout
  uncompyle6 -o . foo.pyc bar.pyc       # decompile to ./foo.pyc_dis and ./bar.pyc_dis
  uncompyle6 -o /tmp /usr/lib/python1.5 # decompile whole library

Options:
  -o <path>     output decompiled files to this path:
                if multiple input files are decompiled, the common prefix
                is stripped from these names and the remainder appended to
                <path>
                  uncompyle6 -o /tmp bla/fasel.pyc bla/foo.pyc
                    -> /tmp/fasel.pyc_dis, /tmp/foo.pyc_dis
                  uncompyle6 -o /tmp bla/fasel.pyc bar/foo.pyc
                    -> /tmp/bla/fasel.pyc_dis, /tmp/bar/foo.pyc_dis
                  uncompyle6 -o /tmp /usr/lib/python1.5
                    -> /tmp/smtplib.pyc_dis ... /tmp/lib-tk/FixTk.pyc_dis
  --compile | -c <python-file>
                attempts a decompilation after compiling <python-file>
  -d            print timestamps
  -p <integer>  use <integer> number of processes
  -r            recurse directories looking for .pyc and .pyo files
  --fragments   use fragments deparser
  --verify      compare generated source with input byte-code
  --verify-run  compile generated source, run it and check exit code
  --syntax-verify compile generated source
  --linemaps    generated line number correspondencies between byte-code
                and generated source output
  --encoding  <encoding>
                use <encoding> in generated source according to pep-0263
  --help        show this message

Debugging Options:
  --asm     | -a        include byte-code       (disables --verify)
  --grammar | -g        show matching grammar
  --tree={before|after}
  -t {before|after}     include syntax before (or after) tree transformation
                        (disables --verify)
  --tree++ | -T         add template rules to --tree=before when possible

Extensions of generated files:
  '.pyc_dis' '.pyo_dis'   successfully decompiled (and verified if --verify)
    + '_unverified'       successfully decompile but --verify failed
    + '_failed'           decompile failed (contact author for enhancement)
".

(** [usage()]: print the text, exit with status 1. *)
Definition usage {A} : M A := emit (Print __doc__) ;;; sys_exit 1.

(** ** Bounded queues ([multiprocessing.Queue]) *)

Module Queue.

Record t (A : Type) := mk { maxsize : Z; items : list A }.
Arguments mk {A} maxsize items.
Arguments maxsize {A} _.
Arguments items {A} _.

  (** [Queue(maxsize)]; a [maxsize] of zero or less means no bound. *)
Definition new {A} (maxsize : Z) : t A := mk maxsize [].

Definition full {A} (q : t A) : bool :=
    (0 <? maxsize q)%Z && (maxsize q <=? Z.of_nat (length (items q)))%Z.

  (** [q.put(x)]: [None] when the call would block on a full queue. *)
Definition put {A} (q : t A) (x : A) : option (t A) :=
    if full q then None else Some (mk (maxsize q) (items q ++ [x])).

  (** [q.get()] and [q.get(False)]: [None] on an empty queue, where the
      first blocks and the second raises [Empty]. *)
Definition get {A} (q : t A) : option (A * t A) :=
    match items q with
    | [] => None
    | x :: r => Some (x, mk (maxsize q) r)
    end.

  (** [for x in xs: q.put(x)], [None] as soon as one [put] would block. *)
Fixpoint put_all {A} (q : t A) (xs : list A) : option (t A) :=
    match xs with
    | [] => Some q
    | x :: xs' =>
        match put q x with
        | Some q' => put_all q' xs'
        | None => None
        end
    end.

End Queue.

(** ** The dispatch layer of [main_bin] *)

Section Dispatch.

  (** The option values handed to [main]: the keyword arguments of the
      serial call, or the [options] dictionary of the parallel one. *)
Variable Opts : Type.

  (** [uncompyle6.main.main(in_base, out_base, compiled_files,
      source_files, outfile, **opts)], the external transformation: it
      returns the four counters or raises. *)
Variable main :
    str → option str → list str → list str → option str → Opts → outcome Counters.

  (** [uncompyle6.main.status_msg] *)
Variable status_msg : Counters → str.

  (** The file system as [os.path.isdir] and [os.walk] see it. *)
Variable isdir : str → bool.
Variable walk : str → list (str * list str * list str).

  (** *** Lines 166-174: expansion of directories under [-r] *)

  (** [df.endswith(".pyc") or df.endswith(".pyo")] *)
Definition wanted (df : str) : bool :=
    endswith df (lit ".pyc") || endswith df (lit ".pyo").

  (** The two inner loops, for one directory argument [f]. *)
Definition expand_dir (f : str) : list str :=
    flat_map
      (fun '(root, _, dir_files) => map (join root) (List.filter wanted dir_files))
      (walk f).

  (** The outer loop: [expanded_files] once it is done. *)
Definition expanded_files (pyc_paths : list str) : list str :=
    flat_map (fun f => if isdir f then expand_dir f else []) pyc_paths.

  (** *** Lines 190-197: where the output goes *)

Definition resolve_out (outfile : option str) (pyc_paths : list str)
    : option str * option str :=
    match outfile with
    | None => (None, None)
    | Some o =>
        if bool_decide (o = lit "-") then (None, None)
        else if truthy o && isdir o then (Some o, None)
        else if truthy o && (1 <? length pyc_paths) then (Some o, None)
        else (None, Some o)
    end.

  (** *** Lines 208-235: serial mode *)

Definition call_main (src_base : str) (out_base : option str)
      (compiled_files source_files : list str) (outfile : option str)
      (opts : Opts) : M Counters :=
    ([CallMain compiled_files source_files],
     match main src_base out_base compiled_files source_files outfile opts with
     | Ret c => Ok c
     | Raise e => Exc e
     end).

Definition serial_dispatch (src_base : str) (out_base : option str)
      (pyc_paths source_paths : list str) (outfile : option str)
      (kw : Opts) : M unit :=
    try_except
      (do result <- call_main src_base out_base pyc_paths source_paths outfile kw in
       when (1 <? length pyc_paths) (emit (Print (lit "# " ++ status_msg result))))
      (fun e =>
         match e with
         | ImportError msg => emit (Print msg) ;;; sys_exit 2
         | KeyboardInterrupt => m_ret tt
         | VerifyCmpError => raise VerifyCmpError
         | _ => raise e
         end).

  (** *** Lines 237-302: parallel mode *)

  (** A worker process: inside the loop of [process_func] with its partial
      counters, ended after [rqueue.put] of these counters, or ended by an
      exception that [process_func] does not catch. *)
Inductive proc :=
  | Running (acc : Counters)
  | Published (acc : Counters)
  | Crashed.

Definition exited (p : proc) : bool :=
    match p with Running _ => false | _ => true end.

Record pstate := mk_pstate {
    fqueue : Queue.t (option str);
    rqueue : Queue.t Counters;
    procs : list proc
  }.

  (** What the scheduler lets happen next: worker [i] runs one turn of its
      loop ([Get]), or an exception reaches worker [i] while it waits in
      [fqueue.get()] ([Throw], a [KeyboardInterrupt] for instance). *)
Inductive pevent :=
  | Get (i : nat)
  | Throw (i : nat) (e : exn).

Section Workers.

Variables (src_base : str) (out_base outfile : option str) (options : Opts).

    (** Line 273, [rqueue.put(...)] after the loop: [None] when the call
        would block. *)
Definition publish (st : pstate) (i : nat)
        (fq : Queue.t (option str)) (acc : Counters) : option pstate :=
      match Queue.put (rqueue st) acc with
      | Some rq => Some (mk_pstate fq rq (<[i := Published acc]> (procs st)))
      | None => None
      end.

    (** Lines 271-272, [except (Empty, KeyboardInterrupt): pass]; any other
        exception leaves [process_func] and ends the process. *)
Definition handle (st : pstate) (i : nat)
        (fq : Queue.t (option str)) (acc : Counters) (e : exn) : option pstate :=
      match e with
      | Empty | KeyboardInterrupt => publish st i fq acc
      | _ => Some (mk_pstate fq (rqueue st) (<[i := Crashed]> (procs st)))
      end.

    (** One event of [process_func] in worker [i]; [None] when the event
        cannot happen (the worker has ended, or is blocked). *)
Definition pstep (ev : pevent) (st : pstate) : option pstate :=
      match ev with
      | Get i =>
          match procs st !! i with
          | Some (Running acc) =>
              match Queue.get (fqueue st) with
              | None => None
              | Some (None, fq) => publish st i fq acc
              | Some (Some f, fq) =>
                  match main src_base out_base [f] [] outfile options with
                  | Ret c =>
                      Some (mk_pstate fq (rqueue st)
                              (<[i := Running (cadd acc c)]> (procs st)))
                  | Raise e => handle st i fq acc e
                  end
              end
          | _ => None
          end
      | Throw i e =>
          match procs st !! i with
          | Some (Running acc) => handle st i (fqueue st) acc e
          | _ => None
          end
      end.

    (** What an event took from [fqueue]: nothing, or the item at its head. *)
Definition takes (st st' : pstate) (taken : option (option str)) : Prop :=
      match taken with
      | None => fqueue st' = fqueue st
      | Some item => Queue.get (fqueue st) = Some (item, fqueue st')
      end.

    (** The steps of [pstep] as a relation between states: a worker adds
        the counters of one file, publishes its counters and ends, or ends
        on an exception it does not catch. *)
Inductive pmove (st st' : pstate) : Prop :=
    | move_work (i : nat) (acc c : Counters) (f : str) :
        procs st !! i = Some (Running acc) →
        takes st st' (Some (Some f)) →
        main src_base out_base [f] [] outfile options = Ret c →
        rqueue st' = rqueue st →
        procs st' = <[i := Running (cadd acc c)]> (procs st) →
        pmove st st'
    | move_publish (i : nat) (acc : Counters) (taken : option (option str)) :
        procs st !! i = Some (Running acc) →
        takes st st' taken →
        Queue.put (rqueue st) acc = Some (rqueue st') →
        procs st' = <[i := Published acc]> (procs st) →
        pmove st st'
    | move_crash (i : nat) (acc : Counters) (taken : option (option str)) :
        procs st !! i = Some (Running acc) →
        taken ≠ Some None →
        takes st st' taken →
        rqueue st' = rqueue st →
        procs st' = <[i := Crashed]> (procs st) →
        pmove st st'.

    (** A schedule is the list of events in the order they happen; an
        event that cannot happen is passed over. *)
Definition run (sched : list pevent) (st : pstate) : pstate :=
      fold_left (fun st ev => default st (pstep ev st)) sched st.

Variables (pyc_paths : list str) (numproc : Z).

    (** Lines 244-248: the work queue and its filling. *)
Definition fill : option (Queue.t (option str)) :=
      let fqueue := Queue.new (Z.of_nat (length pyc_paths) + numproc) in
      match Queue.put_all fqueue (map Some pyc_paths) with
      | Some fqueue => Queue.put_all fqueue (replicate (Z.to_nat numproc) None)
      | None => None
      end.

    (** Lines 250 and 277-279: the result queue and the started workers,
        each with its counters at zero. *)
Definition start (fq : Queue.t (option str)) : pstate :=
      mk_pstate fq (Queue.new numproc)
        (replicate (Z.to_nat numproc) (Running czero)).

    (** Lines 282-296: [rqueue.get(False)] until [Empty] is raised. *)
Fixpoint drain (its : list Counters) (acc : Counters) : Counters :=
      match its with
      | [] => acc
      | c :: its' => drain its' (cadd acc c)
      end.

    (** The joins return once every worker has ended; then the queue is
        drained and the summary printed. What an exception that reaches the
        parent in between does is [parent_guard], further down. *)
Definition collect (st : pstate) : M unit :=
      if forallb exited (procs st)
      then emit (PrintSummary (drain (Queue.items (rqueue st)) czero))
      else waiting.

Definition parallel_dispatch (sched : list pevent) : M unit :=
      match fill with
      | Some fq => collect (run sched (start fq))
      | None => waiting
      end.

End Workers.

  (** *** [main_bin] from line 165 on *)

Record Settings := mk_settings {
    files : list str;
    recurse_dirs : bool;
    outfile_opt : option str;
    numproc_opt : Z;
    timestamp : bool;
    source_paths : list str;
    asm : bool;
    asm_plus : bool;
    tree : bool;
    tree_plus : bool;
    options : Opts
  }.

  (** The keyword arguments of the serial call, from [asm_opt] and
      [show_ast]; the other keywords are fixed values. *)
Variable kwargs : option str → bool * bool → Opts.

Definition asm_opt (s : Settings) : option str :=
    if asm_plus s || asm s
    then Some (if asm_plus s then lit "both" else lit "after")
    else None.

Definition show_ast (s : Settings) : bool * bool :=
    (tree s || tree_plus s, tree_plus s).

  (** [pyc_paths] after lines 166-174. *)
Definition input_paths (s : Settings) : list str :=
    if recurse_dirs s then expanded_files (files s) else files s.

Definition main_bin (s : Settings) (sched : list pevent) : M unit :=
    match path_reduce (input_paths s) with
    | None => raise IndexError
    | Some (src_base, pyc_paths) =>
        when (negb (truthy pyc_paths))
          (emit (StderrWrite (lit "No files given
")) ;;; usage) ;;;
        let '(out_base, outfile) := resolve_out (outfile_opt s) pyc_paths in
        when (timestamp s) (emit PrintTimestamp) ;;;
        (if (numproc_opt s <=? 1)%Z
         then serial_dispatch src_base out_base pyc_paths (source_paths s)
                outfile (kwargs (asm_opt s) (show_ast s))
         else parallel_dispatch src_base out_base outfile (options s)
                pyc_paths (numproc_opt s) sched) ;;;
        when (timestamp s) (emit PrintTimestamp)
    end.

  (** Lines 276-302 around the parallel block: an exception that reaches
    the parent inside [try] (while it starts or joins the workers or drains
    the queue) skips what is left of the block, the summary with it;
    [except (KeyboardInterrupt, OSError): pass] then lets [main_bin] go on,
    any other exception escapes. [parent] is that exception, if there is
    one. *)
Definition parent_guard (parent : option exn) (m : M unit) : M unit :=
  match parent with
  | None => m
  | Some e =>
      try_except (raise e)
        (fun e =>
           match e with
           | KeyboardInterrupt | OSError => m_ret tt
           | _ => raise e
           end)
  end.

(** [main_bin] from line 165 on, with the exception that may reach the
    parent in parallel mode. *)
Definition main_bin_guarded (parent : option exn) (s : Settings)
    (sched : list pevent) : M unit :=
  match path_reduce (input_paths s) with
  | None => raise IndexError
  | Some (src_base, pyc_paths) =>
      when (negb (truthy pyc_paths))
        (emit (StderrWrite (lit "No files given
")) ;;; usage) ;;;
      let '(out_base, outfile) := resolve_out (outfile_opt s) pyc_paths in
      when (timestamp s) (emit PrintTimestamp) ;;;
      (if (numproc_opt s <=? 1)%Z
       then serial_dispatch src_base out_base pyc_paths (source_paths s)
              outfile (kwargs (asm_opt s) (show_ast s))
       else parent_guard parent
              (parallel_dispatch src_base out_base outfile (options s)
                 pyc_paths (numproc_opt s) sched)) ;;;
      when (timestamp s) (emit PrintTimestamp)
  end.


End Dispatch.

Arguments mk_settings {Opts}.
Arguments files {Opts} _.
Arguments recurse_dirs {Opts} _.
Arguments outfile_opt {Opts} _.
Arguments numproc_opt {Opts} _.
Arguments timestamp {Opts} _.
Arguments source_paths {Opts} _.
Arguments asm {Opts} _.
Arguments asm_plus {Opts} _.
Arguments tree {Opts} _.
Arguments tree_plus {Opts} _.
Arguments options {Opts} _.

(** ** Notions the statements use *)

(** The tuple a worker has put on [rqueue], if it has. *)
Definition published_of (p : proc) : option Counters :=
  match p with Published a => Some a | _ => None end.

(** The tuples put on [rqueue], worker by worker. *)
Definition published (ps : list proc) : list Counters := omap published_of ps.

(** The number of workers still in their loop. *)
Definition running (ps : list proc) : nat :=
  sum_list_with (fun p => if exited p then 0 else 1) ps.

(** The counters a worker holds in its loop. *)
Definition partial_of (p : proc) : Counters :=
  match p with Running a => a | _ => czero end.

Definition is_get (ev : pevent) : bool :=
  match ev with Get _ => true | Throw _ _ => false end.

(** The worker an event belongs to. *)
Definition worker_of (ev : pevent) : nat :=
  match ev with Get i => i | Throw i _ => i end.

(** What holds of every state of the parallel run: the workers are
    [numproc], [rqueue] holds what the ended workers published, and
    [fqueue] holds paths followed by at least one sentinel per worker
    still in its loop. *)
Definition inv (numproc : Z) (st : pstate) : Prop :=
  length (procs st) = Z.to_nat numproc
  ∧ Queue.maxsize (rqueue st) = numproc
  ∧ Queue.items (rqueue st) ≡ₚ published (procs st)
  ∧ ∃ rest k,
      Queue.items (fqueue st) = map Some rest ++ replicate k None
      ∧ running (procs st) ≤ k.


(** What holds in addition while no worker is interrupted and [main]
    returns [g f] for every file [f]: no worker has crashed, there is
    exactly one sentinel per worker in its loop, no path is left once a
    worker has ended, and the counters published, held and still to come
    add up to the counters of all paths. *)
Definition inv_work (g : str → Counters) (pyc_paths : list str) (st : pstate)
  : Prop :=
  ∃ rest,
    Queue.items (fqueue st) = map Some rest ++ replicate (running (procs st)) None
    ∧ (running (procs st) < length (procs st) → rest = [])
    ∧ cadd (csum (published (procs st)))
        (cadd (csum (map partial_of (procs st))) (csum (map g rest)))
      = csum (map g pyc_paths).

(** The settings with other file arguments. *)
Definition set_files {Opts} (s : Settings Opts) (fs : list str) : Settings Opts :=
  mk_settings fs (recurse_dirs s) (outfile_opt s) (numproc_opt s) (timestamp s)
    (source_paths s) (asm s) (asm_plus s) (tree s) (tree_plus s) (options s).

(** The timestamp line, when asked for. *)
Definition stamp {Opts} (s : Settings Opts) : list event :=
  if timestamp s then [PrintTimestamp] else [].

(** ** Concrete collaborators for the examples *)

Module Demo.

Definition has (name : string) (fs : list str) : bool :=
    existsb (fun f => bool_decide (f = lit name)) fs.

  (** A transformation that fails on some file names and counts every
      other file as decompiled. *)
Definition main (in_base : str) (out_base : option str)
      (compiled_files source_files : list str) (outfile : option str)
      (opts : unit) : outcome Counters :=
    if has "crash.pyc" compiled_files then Raise OtherError
    else if has "stop.pyc" compiled_files then Raise KeyboardInterrupt
    else if has "verify.pyc" compiled_files then Raise VerifyCmpError
    else Ret (Z.of_nat (length compiled_files),
              Z.of_nat (length compiled_files), 0, 0)%Z.




(** A transformation that counts every file as decompiled. *)
Definition main_ok (in_base : str) (out_base : option str)
    (compiled_files source_files : list str) (outfile : option str)
    (opts : unit) : outcome Counters :=
  Ret (Z.of_nat (length compiled_files), Z.of_nat (length compiled_files), 0, 0)%Z.

Definition status_msg (c : Counters) : str := lit "decompiled".

(** [int] on strings of decimal digits; any other string is refused. *)
Definition digit (c : ascii) : option Z :=
  let n := Z.of_N (N_of_ascii c) in
  if (48 <=? n)%Z && (n <=? 57)%Z then Some (n - 48)%Z else None.

Definition int (s : str) : option Z :=
  match s with
  | [] => None
  | _ => fold_left (fun acc c =>
                      match acc, digit c with
                      | Some a, Some d => Some (10 * a + d)%Z
                      | _, _ => None
                      end) s (Some 0%Z)
  end.

(** A transformation whose engine cannot be imported. *)
Definition main_unimportable (in_base : str) (out_base : option str)
    (compiled_files source_files : list str) (outfile : option str)
    (opts : unit) : outcome Counters :=
  Raise (ImportError (lit "No module named xdis")).

  (** A file system with the directory "lib" and its subdirectory "sub". *)
Definition isdir (f : str) : bool :=
    bool_decide (f = lit "lib") || bool_decide (f = lit "lib/sub").

Definition walk (f : str) : list (str * list str * list str) :=
    if bool_decide (f = lit "lib")
    then [(lit "lib", [lit "sub"], [lit "a.pyc"; lit "README"]);
          (lit "lib/sub", [], [lit "b.pyo"; lit "c.py"])]
    else [].

Definition kwargs (showasm : option str) (showast : bool * bool) : unit := tt.

Definition settings (fs : list str) (recurse : bool) (n : Z) : Settings unit :=
    mk_settings fs recurse None n true [] false false false false tt.

End Demo.

(** ** The option loop: lines 81-88 and 105-163 of [main_bin] *)

Module OptionLoop.

(** The values the loop stores in the [options] dictionary; [PAst] is the
    dictionary kept under ["showast"], whose keys are ["before"] and
    ["after"]. *)
Inductive pyval :=
| PNone
| PTrue
| PStr (s : str)
| PAst (d : gmap string bool).

(** The exceptions the loop can raise. *)
Inductive loop_exn :=
| KeyError (key : string)
| TypeError
| ValueError (s : str).

(** The variables the loop assigns. *)
Record state := mk {
  options : gmap string pyval;
  outfile : option str;
  timestamp : bool;
  source_paths : list str;
  numproc : Z;
  recurse_dirs : bool
}.

(** How one turn of the loop ends: it goes on with the next option, the
    process exits after some output, or an exception escapes. *)
Inductive step_result :=
| Next (st : state)
| Stop (out : list event) (code : Z)
| Fail (e : loop_exn).

(** Lines 81-88 and 105-107; [outfile] and [recurse_dirs] are set outside
    the lines at hand. *)
Definition initial (outfile : option str) (recurse_dirs : bool) : state :=
  mk {["showasm" := PNone]} outfile false [] 0 recurse_dirs.

(** [opt in (n1, n2, ...)], and [opt == n] for a single name. *)
Definition is_opt (opt : str) (names : list string) : bool :=
  existsb (fun n => bool_decide (opt = lit n)) names.

(** [options[k] = v] *)
Definition set_option (st : state) (k : string) (v : pyval) : state :=
  mk (<[k:=v]> (options st)) (outfile st) (timestamp st) (source_paths st)
    (numproc st) (recurse_dirs st).

(** The common part of the [--tree] and [--tree+] branches: create
    [options["showast"]] when missing, set keys in it, and clear
    [do_verify]. *)
Definition with_showast (st : state)
    (f : gmap string bool → gmap string bool) : step_result :=
  match default (PAst ∅) (options st !! "showast") with
  | PAst d =>
      Next (set_option (set_option st "showast" (PAst (f d))) "do_verify" PNone)
  | _ => Fail TypeError
  end.

Section Loop.

(** [__version__], and [int(val)] with [None] for its [ValueError]. *)
Variable version : str.
Variable int : str → option Z.

(** The body of [for opt, val in opts], lines 109-163. *)
Definition body (st : state) (opt val : str) : step_result :=
  if is_opt opt ["-h"; "--help"] then Stop [Print __doc__] 0
  else if is_opt opt ["-V"; "--version"]
  then Stop [Print (lit "uncompyle6" ++ lit " " ++ version)] 0
  else if is_opt opt ["--verify"]
  then Next (set_option st "do_verify" (PStr (lit "strong")))
  else if is_opt opt ["--syntax-verify"]
  then Next (set_option st "do_verify" (PStr (lit "weak")))
  else if is_opt opt ["--fragments"]
  then Next (set_option st "do_fragments" PTrue)
  else if is_opt opt ["--verify-run"]
  then Next (set_option st "do_verify" (PStr (lit "verify-run")))
  else if is_opt opt ["--linemaps"]
  then Next (set_option st "do_linemaps" PTrue)
  else if is_opt opt ["--asm"; "-a"]
  then match options st !! "showasm" with
       | None => Fail (KeyError "showasm")
       | Some v =>
           Next (set_option
                   (set_option st "showasm"
                      (PStr (match v with
                             | PNone => lit "after"
                             | _ => lit "both"
                             end)))
                   "do_verify" PNone)
       end
  else if is_opt opt ["--tree"; "-t"]
  then with_showast st
         (fun d =>
            if bool_decide (val = lit "before") then <["before":=true]> d
            else if bool_decide (val = lit "after") then <["after":=true]> d
            else <["before":=true]> d)
  else if is_opt opt ["--tree+"; "-T"]
  then with_showast st (fun d => <["before":=true]> (<["after":=true]> d))
  else if is_opt opt ["--grammar"; "-g"]
  then Next (set_option st "showgrammar" PTrue)
  else if is_opt opt ["-o"]
  then Next (mk (options st) (Some val) (timestamp st) (source_paths st)
               (numproc st) (recurse_dirs st))
  else if is_opt opt ["--timestamp"; "-d"]
  then Next (mk (options st) (outfile st) true (source_paths st)
               (numproc st) (recurse_dirs st))
  else if is_opt opt ["--compile"; "-c"]
  then Next (mk (options st) (outfile st) (timestamp st)
               (source_paths st ++ [val]) (numproc st) (recurse_dirs st))
  else if is_opt opt ["-p"]
  then match int val with
       | Some n => Next (mk (options st) (outfile st) (timestamp st)
                           (source_paths st) n (recurse_dirs st))
       | None => Fail (ValueError val)
       end
  else if is_opt opt ["--recurse"; "-r"]
  then Next (mk (options st) (outfile st) (timestamp st) (source_paths st)
               (numproc st) true)
  else if is_opt opt ["--encoding"]
  then Next (set_option st "source_encoding" (PStr val))
  else Stop [StderrWrite opt; Print __doc__] 1.

(** The loop over the pairs [getopt] returned. *)
Fixpoint loop (st : state) (opts : list (str * str)) : step_result :=
  match opts with
  | [] => Next st
  | (opt, val) :: rest =>
      match body st opt val with
      | Next st' => loop st' rest
      | r => r
      end
  end.

End Loop.

(** The option letters and words given to [getopt.getopt], lines 93-98:
    the letters of ["hac:gtTdrVo:p:"] and the words of the long-option
    string, split at the spaces. *)
Definition shortopts : str := lit "hac:gtTdrVo:p:".

Definition longopts : list str :=
  map lit ["help"; "asm"; "compile="; "grammar"; "linemaps"; "recurse";
           "timestamp"; "tree="; "tree+";
           "fragments"; "verify"; "verify-run"; "version";
           "syntax-verify";
           "showgrammar"; "encoding="].

(** The option names [getopt] can return for them: a dash and the letter,
    or two dashes and the word without its ["="]. *)
Definition getopt_names : list str :=
  map (fun c => lit "-" ++ [c])
    (List.filter (fun c => negb (bool_decide (c = ":"%char))) shortopts)
  ++ map (fun w => lit "--"
                   ++ (if endswith w (lit "=") then take (length w - 1) w else w))
       longopts.

(** What an option does to [options["do_verify"]], branch by branch: the
    value it stores, or nothing. *)
Definition verify_effect (opt : str) : option pyval :=
  if is_opt opt ["--verify"] then Some (PStr (lit "strong"))
  else if is_opt opt ["--syntax-verify"] then Some (PStr (lit "weak"))
  else if is_opt opt ["--verify-run"] then Some (PStr (lit "verify-run"))
  else if is_opt opt ["--asm"; "-a"; "--tree"; "-t"; "--tree+"; "-T"]
  then Some PNone
  else None.

(** The values given with the options of some names, in order. *)
Definition values_of (names : list string) (opts : list (str * str)) : list str :=
  map snd (List.filter (fun ov => is_opt ov.1 names) opts).

End OptionLoop.

(** ** The calls and the turns of a parallel run *)

Section Instrumented.

Variable Opts : Type.
Variable main :
  str → option str → list str → list str → option str → Opts → outcome Counters.
Variables (src_base : str) (out_base outfile : option str) (options : Opts).

(** The call of [main] an event makes: worker [i] in its loop takes a
    path from [fqueue] and calls [main] with it. *)
Definition call_of (ev : pevent) (st : pstate) : option (nat * str) :=
  match ev with
  | Get i =>
      match procs st !! i with
      | Some (Running _) =>
          match Queue.get (fqueue st) with
          | Some (Some f, _) => Some (i, f)
          | _ => None
          end
      | _ => None
      end
  | Throw _ _ => None
  end.

(** The calls of [main] along a schedule, as pairs of worker and path. *)
Fixpoint calls (sched : list pevent) (st : pstate) : list (nat * str) :=
  match sched with
  | [] => []
  | ev :: rest =>
      match pstep Opts main src_base out_base outfile options ev st with
      | Some st' => option_list (call_of ev st) ++ calls rest st'
      | None => calls rest st
      end
  end.

(** The number of events of a schedule that happen. *)
Fixpoint happened (sched : list pevent) (st : pstate) : nat :=
  match sched with
  | [] => 0
  | ev :: rest =>
      match pstep Opts main src_base out_base outfile options ev st with
      | Some st' => S (happened rest st')
      | None => happened rest st
      end
  end.

End Instrumented.

(** * Properties *)

(** ** The order on strings *)

Lemma ord_inj (x y : ascii) : ord x = ord y → x = y.
Proof.
  unfold ord. intros H.
  rewrite <- (ascii_N_embedding x), <- (ascii_N_embedding y). by rewrite H.
Qed.

Lemma str_le_nil (b : str) : str_le [] b = true.
Proof. by destruct b. Qed.

Lemma str_le_cons_nil (x : ascii) (a : str) : str_le (x :: a) [] = false.
Proof. done. Qed.

Lemma str_le_cons (x y : ascii) (a b : str) :
  str_le (x :: a) (y :: b)
  = if (ord y <? ord x)%N then false
    else if (ord x <? ord y)%N then true else str_le a b.
Proof.
  unfold str_le. simpl.
  destruct (N.ltb_spec (ord y) (ord x)), (N.ltb_spec (ord x) (ord y)); try done; lia.
Qed.

Lemma str_le_refl (a : str) : str_le a a = true.
Proof.
  induction a as [|x a IH]; [done|].
  rewrite str_le_cons, N.ltb_irrefl. done.
Qed.

Lemma str_le_trans (a b c : str) :
  str_le a b = true → str_le b c = true → str_le a c = true.
Proof.
  revert b c. induction a as [|x a IH]; intros b c Hab Hbc.
  - apply str_le_nil.
  - destruct b as [|y b]; [done|]. destruct c as [|z c]; [done|].
    rewrite str_le_cons in *.
    destruct (N.ltb_spec (ord y) (ord x)); [done|].
    destruct (N.ltb_spec (ord z) (ord y)); [done|].
    destruct (N.ltb_spec (ord x) (ord y)), (N.ltb_spec (ord y) (ord z)),
      (N.ltb_spec (ord z) (ord x)), (N.ltb_spec (ord x) (ord z));
      try done; try lia.
    by eapply IH.
Qed.

Lemma str_lt_le (a b : str) : str_lt a b = true → str_le a b = true.
Proof.
  revert b. induction a as [|x a IH]; intros [|y b] H; try done.
  rewrite str_le_cons. simpl in H.
  destruct (N.ltb_spec (ord x) (ord y)), (N.ltb_spec (ord y) (ord x));
    try done; try lia.
  by apply IH.
Qed.

(** ** [min] and [max] bound every element *)

Lemma fold_min_le (r : list str) (x : str) :
  let s := fold_left (fun best y => if str_lt y best then y else best) r x in
  str_le s x = true ∧ ∀ f, f ∈ r → str_le s f = true.
Proof.
  revert x. induction r as [|y r IH]; intros x; simpl.
  - split; [apply str_le_refl|]. intros f Hf. by apply elem_of_nil in Hf.
  - destruct (IH (if str_lt y x then y else x)) as [H1 H2].
    assert (Hx : str_le (if str_lt y x then y else x) x = true).
    { destruct (str_lt y x) eqn:E; [by apply str_lt_le | apply str_le_refl]. }
    assert (Hy : str_le (if str_lt y x then y else x) y = true).
    { destruct (str_lt y x) eqn:E; [apply str_le_refl|].
      unfold str_le. by rewrite E. }
    split; [by eapply str_le_trans|].
    intros f Hf. apply elem_of_cons in Hf as [->|Hf]; [|by apply H2].
    by eapply str_le_trans.
Qed.

Lemma fold_max_le (r : list str) (x : str) :
  let s := fold_left (fun best y => if str_lt best y then y else best) r x in
  str_le x s = true ∧ ∀ f, f ∈ r → str_le f s = true.
Proof.
  revert x. induction r as [|y r IH]; intros x; simpl.
  - split; [apply str_le_refl|]. intros f Hf. by apply elem_of_nil in Hf.
  - destruct (IH (if str_lt x y then y else x)) as [H1 H2].
    assert (Hx : str_le x (if str_lt x y then y else x) = true).
    { destruct (str_lt x y) eqn:E; [by apply str_lt_le | apply str_le_refl]. }
    assert (Hy : str_le y (if str_lt x y then y else x) = true).
    { destruct (str_lt x y) eqn:E; [apply str_le_refl|].
      unfold str_le. by rewrite E. }
    split; [by eapply str_le_trans|].
    intros f Hf. apply elem_of_cons in Hf as [->|Hf]; [|by apply H2].
    by eapply str_le_trans.
Qed.

Lemma py_min_le (m : list str) (s1 f : str) :
  py_min m = Some s1 → f ∈ m → str_le s1 f = true.
Proof.
  destruct m as [|x r]; [done|]. intros [= <-] Hf.
  destruct (fold_min_le r x) as [H1 H2].
  apply elem_of_cons in Hf as [->|Hf]; auto.
Qed.

Lemma py_max_le (m : list str) (s2 f : str) :
  py_max m = Some s2 → f ∈ m → str_le f s2 = true.
Proof.
  destruct m as [|x r]; [done|]. intros [= <-] Hf.
  destruct (fold_max_le r x) as [H1 H2].
  apply elem_of_cons in Hf as [->|Hf]; auto.
Qed.

(** ** [commonprefix] *)

Lemma commonprefix_loop_total (s1 s2 : str) :
  str_le s1 s2 = true → is_Some (commonprefix_loop s1 s2).
Proof.
  revert s2. induction s1 as [|c s1 IH]; intros s2 H; simpl; [by eexists|].
  destruct s2 as [|d s2]; [done|].
  destruct (decide (c = d)) as [->|]; [|by eexists].
  rewrite str_le_cons, N.ltb_irrefl in H.
  destruct (IH s2 H) as [p ->]. by eexists.
Qed.

Lemma commonprefix_loop_prefix (s1 s2 f p : str) :
  commonprefix_loop s1 s2 = Some p →
  str_le s1 f = true → str_le f s2 = true → p `prefix_of` f.
Proof.
  revert s2 f p. induction s1 as [|c s1 IH]; intros s2 f p; simpl.
  - intros [= <-] _ _. apply prefix_nil.
  - destruct s2 as [|d s2]; [done|].
    destruct (decide (c = d)) as [<-|]; [|intros [= <-] _ _; apply prefix_nil].
    destruct (commonprefix_loop s1 s2) as [p'|] eqn:E; [|done].
    intros [= <-] H1 H2. destruct f as [|e f]; [done|].
    rewrite str_le_cons in H1, H2.
    destruct (N.ltb_spec (ord e) (ord c)); [done|].
    destruct (N.ltb_spec (ord c) (ord e)); [done|].
    assert (e = c) as -> by (apply ord_inj; lia).
    apply prefix_cons. by eapply IH.
Qed.

Lemma commonprefix_total (m : list str) : is_Some (commonprefix m).
Proof.
  unfold commonprefix.
  destruct m as [|x r]; [by eexists|].
  destruct (py_min (x :: r)) as [s1|] eqn:E1; [|done].
  destruct (py_max (x :: r)) as [s2|] eqn:E2; [|done].
  apply commonprefix_loop_total.
  eapply str_le_trans.
  - eapply py_min_le; [done|]. apply elem_of_cons. by left.
  - eapply py_max_le; [done|]. apply elem_of_cons. by left.
Qed.

Lemma commonprefix_prefix (m : list str) (p f : str) :
  commonprefix m = Some p → f ∈ m → p `prefix_of` f.
Proof.
  unfold commonprefix. intros H Hf.
  destruct (py_min m) as [s1|] eqn:E1; [|by destruct m; [apply elem_of_nil in Hf|]].
  destruct (py_max m) as [s2|] eqn:E2; [|by destruct m].
  eapply commonprefix_loop_prefix; [done| |].
  - by eapply py_min_le.
  - by eapply py_max_le.
Qed.

(** ** [dirname], [join] and the prefix that is cut off *)

Lemma endswith_sep_snoc (l : str) (c : ascii) :
  endswith (l ++ [c]) sep = is_sep c.
Proof.
  unfold endswith, is_sep. rewrite rev_app_distr. simpl.
  destruct (decide (c = sep_char)) as [->|Hne].
  - by rewrite bool_decide_eq_true_2.
  - by rewrite bool_decide_eq_false_2.
Qed.

Lemma endswith_sep_cons (c : ascii) (l : str) :
  l ≠ [] → endswith (c :: l) sep = endswith l sep.
Proof.
  destruct l as [|d l _] using rev_ind; [done|]. intros _.
  by rewrite app_comm_cons, !endswith_sep_snoc.
Qed.

Lemma slice_last_snoc (l : str) (c : ascii) : slice_last (l ++ [c]) = [c].
Proof.
  unfold slice_last. rewrite length_app. simpl.
  replace (length l + 1 - 1) with (length l) by lia.
  by rewrite drop_app_length.
Qed.

Lemma rfind_succ_spec (p : str) :
  rfind_succ p = 0 ∨ ∃ l, take (rfind_succ p) p = l ++ [sep_char].
Proof.
  induction p as [|c r IH]; [by left|]. simpl.
  destruct (rfind_succ r) as [|k] eqn:E.
  - unfold is_sep. case_bool_decide as Hc; [|by left].
    right. exists []. by rewrite Hc.
  - right. destruct IH as [|[l Hl]]; [done|].
    exists (c :: l). simpl in *. by rewrite Hl.
Qed.

Lemma rstrip_spec (s : str) : ∃ n, s = rstrip s ++ replicate n sep_char.
Proof.
  induction s as [|c r [n IH]]; [by exists 0|]. simpl.
  destruct (rstrip r) as [|x r'] eqn:E.
  - unfold is_sep. case_bool_decide as Hc.
    + exists (S n). simpl in *. by rewrite Hc, IH at 1.
    + exists n. simpl in *. by rewrite IH at 1.
  - exists n. simpl. by rewrite IH at 1.
Qed.

Lemma rstrip_not_endswith (s : str) : endswith (rstrip s) sep = false.
Proof.
  induction s as [|c r IH]; [done|]. simpl.
  destruct (rstrip r) as [|x r'] eqn:E.
  - destruct (is_sep c) eqn:Hc; [done|].
    change [c] with ([] ++ [c]). by rewrite endswith_sep_snoc.
  - by rewrite endswith_sep_cons.
Qed.

Lemma rstrip_nil_all_sep (s : str) : rstrip s = [] → forallb is_sep s = true.
Proof.
  induction s as [|c r IH]; [done|]. simpl.
  destruct (rstrip r) as [|x r'] eqn:E; [|done].
  destruct (is_sep c); [auto|done].
Qed.

Lemma truthy_true {A} (l : list A) : truthy l = true ↔ l ≠ [].
Proof. by destruct l. Qed.

Lemma join_empty_of_endswith (a : str) :
  endswith a sep = true → join a [] = a.
Proof.
  intros H. unfold join. simpl. rewrite H, orb_true_r. apply app_nil_r.
Qed.

Lemma join_empty_of_not_endswith (a : str) :
  a ≠ [] → endswith a sep = false → join a [] = a ++ sep.
Proof.
  intros Ha H. unfold join. simpl. rewrite H.
  apply truthy_true in Ha. by rewrite Ha.
Qed.

(** The directory part with its trailing separator is a prefix of the path. *)
Lemma join_dirname_prefix (p : str) : join (dirname p) [] `prefix_of` p.
Proof.
  unfold dirname.
  destruct (rfind_succ_spec p) as [->|[h Hh]]; [apply prefix_nil|].
  assert (Hp : take (rfind_succ p) p `prefix_of` p).
  { exists (drop (rfind_succ p) p). by rewrite take_drop. }
  rewrite Hh in *.
  assert (Ht : truthy (h ++ [sep_char]) = true) by (apply truthy_true; by destruct h).
  rewrite Ht. simpl.
  destruct (forallb is_sep (h ++ [sep_char])) eqn:Hall; simpl.
  - rewrite join_empty_of_endswith; [done|]. by rewrite endswith_sep_snoc.
  - destruct (rstrip_spec (h ++ [sep_char])) as [n Hn].
    pose proof (rstrip_not_endswith (h ++ [sep_char])) as Hends.
    assert (Hne : rstrip (h ++ [sep_char]) ≠ []).
    { intros Hnil. apply rstrip_nil_all_sep in Hnil. congruence. }
    rewrite join_empty_of_not_endswith by done.
    etrans; [|exact Hp].
    destruct n as [|n].
    + simpl in Hn. rewrite app_nil_r in Hn. rewrite <- Hn in Hends.
      by rewrite endswith_sep_snoc in Hends.
    + rewrite Hn at 2. exists (replicate n sep_char).
      by rewrite <- app_assoc.
Qed.

Lemma prefix_with_sep_base_of (cp : str) :
  prefix_with_sep (base_of cp) `prefix_of` cp.
Proof.
  unfold prefix_with_sep, base_of.
  case_bool_decide as Hl; [apply join_dirname_prefix|].
  destruct cp as [|c l _] using rev_ind; [done|].
  rewrite slice_last_snoc in Hl. injection Hl as ->.
  rewrite join_empty_of_endswith; [done|]. by rewrite endswith_sep_snoc.
Qed.

Lemma path_reduce_unfold (pyc_paths : list str) (cp : str) :
  commonprefix pyc_paths = Some cp →
  path_reduce pyc_paths
  = Some (base_of cp,
          if truthy (base_of cp)
          then map (slice_from (length (prefix_with_sep (base_of cp)))) pyc_paths
          else pyc_paths).
Proof.
  intros H. unfold path_reduce, base_of, prefix_with_sep. rewrite H.
  by destruct (truthy _).
Qed.

Lemma rejoin_slice (pre f : str) :
  pre `prefix_of` f → pre ++ slice_from (length pre) f = f.
Proof. intros [k ->]. unfold slice_from. by rewrite drop_app_length. Qed.

Lemma commonprefix_loop_refl (p : str) : commonprefix_loop p p = Some p.
Proof.
  induction p as [|c p IH]; [done|]. simpl.
  rewrite decide_True by done. by rewrite IH.
Qed.

Lemma commonprefix_single (p : str) : commonprefix [p] = Some p.
Proof. unfold commonprefix. simpl. apply commonprefix_loop_refl. Qed.

Lemma slice_last_sep_endswith (p : str) :
  slice_last p = sep ↔ endswith p sep = true.
Proof.
  destruct p as [|c l _] using rev_ind; [done|].
  rewrite slice_last_snoc, endswith_sep_snoc. unfold is_sep, sep.
  rewrite bool_decide_eq_true. split; [by intros [= ->] | by intros ->].
Qed.

Lemma prefix_with_sep_ends (b : str) :
  b ≠ [] → endswith (prefix_with_sep b) sep = true.
Proof.
  intros Hb. unfold prefix_with_sep.
  destruct (endswith b sep) eqn:E.
  - by rewrite join_empty_of_endswith.
  - rewrite join_empty_of_not_endswith by done.
    unfold sep. by rewrite endswith_sep_snoc.
Qed.

(** The relative paths put back on the prefix give the paths. *)
Lemma path_reduce_rejoin (pyc_paths : list str) :
  ∃ src_base rel,
    path_reduce pyc_paths = Some (src_base, rel)
    ∧ map (rejoin src_base) rel = pyc_paths.
Proof.
  destruct (commonprefix_total pyc_paths) as [cp Hcp].
  rewrite (path_reduce_unfold _ _ Hcp).
  eexists _, _. split; [done|].
  destruct (truthy (base_of cp)) eqn:Ht.
  - rewrite map_map. rewrite <- (map_id pyc_paths) at 2.
    apply map_ext_in. intros f Hf. apply list_elem_of_In in Hf.
    unfold rejoin. apply rejoin_slice.
    etrans; [apply prefix_with_sep_base_of|].
    by eapply commonprefix_prefix.
  - destruct (base_of cp); [|done].
    rewrite <- (map_id pyc_paths) at 2. by apply map_ext.
Qed.

(** [os.path.join] puts a relative path back in the same way, unless the
    relative path itself starts with a separator. *)
Lemma join_eq_rejoin (src_base rel : str) :
  startswith rel sep = false → join src_base rel = rejoin src_base rel.
Proof.
  intros H. unfold rejoin, prefix_with_sep, join. rewrite H.
  change (startswith [] sep) with false. cbv iota.
  destruct (negb (truthy src_base) || endswith src_base sep).
  - by rewrite app_nil_r.
  - by rewrite <- !app_assoc.
Qed.

Example join_doubled_separator :
  path_reduce [lit "a//bx"; lit "a//by"] = Some (lit "a", [lit "/bx"; lit "/by"])
  ∧ rejoin (lit "a") (lit "/bx") = lit "a//bx"
  ∧ join (lit "a") (lit "/bx") = lit "/bx".
Proof. by vm_compute. Qed.

(** C1: for every sequence of input paths (the non-empty ones among
    them), PathReducer returns a prefix and relative paths, as many as
    there are inputs and in their order, and each relative path appended
    to the prefix with its trailing separator is the input path it came
    from. *)
Theorem C1_reduce_then_rejoin (pyc_paths : list str) :
  pyc_paths ≠ [] →
  ∃ src_base rel,
    path_reduce pyc_paths = Some (src_base, rel)
    ∧ length rel = length pyc_paths
    ∧ map (rejoin src_base) rel = pyc_paths
    ∧ ∀ i f, pyc_paths !! i = Some f →
        ∃ r, rel !! i = Some r ∧ prefix_with_sep src_base ++ r = f.
Proof.
  intros _.
  destruct (path_reduce_rejoin pyc_paths) as (b & rel & Hr & Hm).
  exists b, rel. split; [done|].
  assert (Hlen : length rel = length pyc_paths).
  { by rewrite <- Hm, length_map. }
  repeat split; [done..|].
  intros i f Hi.
  destruct (lookup_lt_is_Some_2 rel i) as [r Hri].
  { rewrite Hlen. by eapply lookup_lt_Some. }
  exists r. split; [done|].
  rewrite <- Hm in Hi. rewrite list_lookup_fmap, Hri in Hi.
  by injection Hi.
Qed.

Lemma C1_reduce_then_rejoin_witness :
  [lit "lib/pkg/a.pyc"; lit "lib/pkg/sub/b.pyo"; lit "lib/pkg2/c.pyc"] ≠ []
  ∧ ∃ src_base rel,
      path_reduce [lit "lib/pkg/a.pyc"; lit "lib/pkg/sub/b.pyo"; lit "lib/pkg2/c.pyc"]
      = Some (src_base, rel)
      ∧ length rel = 3
      ∧ map (rejoin src_base) rel
        = [lit "lib/pkg/a.pyc"; lit "lib/pkg/sub/b.pyo"; lit "lib/pkg2/c.pyc"]
      ∧ ∀ i f,
          [lit "lib/pkg/a.pyc"; lit "lib/pkg/sub/b.pyo"; lit "lib/pkg2/c.pyc"] !! i
          = Some f →
          ∃ r, rel !! i = Some r ∧ prefix_with_sep src_base ++ r = f.
Proof.
  split; [discriminate|].
  apply (C1_reduce_then_rejoin
           [lit "lib/pkg/a.pyc"; lit "lib/pkg/sub/b.pyo"; lit "lib/pkg2/c.pyc"]).
  discriminate.
Defined.

(** C2: for ["some/classes/a.pyc"; "some/cmds/b.pyc"] the character-wise
    common prefix is "some/c"; PathReducer cuts it back to the directory
    "some", strips the prefix "some/" and yields the relative paths
    "classes/a.pyc" and "cmds/b.pyc". *)
Theorem C2_some_classes_cmds :
  commonprefix [lit "some/classes/a.pyc"; lit "some/cmds/b.pyc"]
  = Some (lit "some/c")
  ∧ path_reduce [lit "some/classes/a.pyc"; lit "some/cmds/b.pyc"]
    = Some (lit "some", [lit "classes/a.pyc"; lit "cmds/b.pyc"])
  ∧ prefix_with_sep (lit "some") = lit "some/"
  ∧ [lit "classes/a.pyc"; lit "cmds/b.pyc"] ≠ [lit "lasses/a.pyc"; lit "mds/b.pyc"].
Proof. repeat split; done. Qed.

(** C6, as stated, fails: the single path "a/b.pyc" is reduced to the
    prefix "a" and the relative path "b.pyc", which is not empty. *)
Lemma C6_single_path_counterexample :
  path_reduce [lit "a/b.pyc"] = Some (lit "a", [lit "b.pyc"])
  ∧ ¬ ∃ src_base, path_reduce [lit "a/b.pyc"] = Some (src_base, [lit ""]).
Proof.
  split; [done|]. intros [b H]. vm_compute in H. discriminate.
Qed.

(** C6, amended: for a single input path [p] the relative path is empty
    exactly when [p] is empty or ends with the separator; a path that does
    not end with the separator has its directory part [dirname p] as
    prefix. In every case the prefix with its trailing separator followed
    by the relative path is [p]. *)
Theorem C6_single_path (p : str) :
  ∃ rel,
    path_reduce [p] = Some (base_of p, [rel])
    ∧ rejoin (base_of p) rel = p
    ∧ (rel = [] ↔ p = [] ∨ endswith p sep = true)
    ∧ (endswith p sep = false → base_of p = dirname p).
Proof.
  pose proof (path_reduce_unfold [p] p (commonprefix_single p)) as Hr.
  set (rel := if truthy (base_of p)
              then slice_from (length (prefix_with_sep (base_of p))) p else p).
  assert (Hrel : path_reduce [p] = Some (base_of p, [rel])).
  { rewrite Hr. unfold rel. by destruct (truthy (base_of p)). }
  assert (Hjoin : rejoin (base_of p) rel = p).
  { unfold rel, rejoin. destruct (truthy (base_of p)) eqn:Ht.
    - apply rejoin_slice, prefix_with_sep_base_of.
    - by destruct (base_of p). }
  exists rel. repeat split; [done..| | |].
  - intros Hnil. rewrite Hnil in Hjoin. unfold rejoin in Hjoin.
    rewrite app_nil_r in Hjoin.
    destruct (decide (base_of p = [])) as [Hb|Hb].
    + left. by rewrite Hb in Hjoin.
    + right. rewrite <- Hjoin. by apply prefix_with_sep_ends.
  - intros [->|He].
    + unfold rejoin in Hjoin. by apply app_eq_nil in Hjoin as [_ ?].
    + assert (Hb : base_of p = p).
      { unfold base_of. apply slice_last_sep_endswith in He.
        by rewrite bool_decide_eq_false_2 by (by intros ?). }
      unfold rejoin, prefix_with_sep in Hjoin.
      rewrite Hb, join_empty_of_endswith in Hjoin by done.
      rewrite <- (app_nil_r p) in Hjoin at 2. by apply app_inv_head in Hjoin.
  - intros He. unfold base_of. rewrite bool_decide_eq_true_2; [done|].
    intros Hs. apply slice_last_sep_endswith in Hs. congruence.
Qed.

(** ** Counters form a commutative monoid *)

Ltac counters :=
  repeat match goal with
         | c : Counters |- _ => destruct c as [[[? ?] ?] ?]
         end;
  unfold cadd, czero in *; simplify_eq; repeat (apply (f_equal2 pair)); lia.

Lemma cadd_comm (a b : Counters) : cadd a b = cadd b a.
Proof. counters. Qed.

Lemma cadd_assoc (a b c : Counters) : cadd a (cadd b c) = cadd (cadd a b) c.
Proof. counters. Qed.

Lemma cadd_zero_l (a : Counters) : cadd czero a = a.
Proof. counters. Qed.

Lemma cadd_zero_r (a : Counters) : cadd a czero = a.
Proof. counters. Qed.

Lemma counters_work (P Part Part' R acc gf : Counters) :
  cadd Part' acc = cadd Part (cadd acc gf) →
  cadd P (cadd Part' R) = cadd P (cadd Part (cadd gf R)).
Proof. intros. counters. Qed.

Lemma counters_publish (P Part Part' acc : Counters) :
  cadd Part' acc = Part →
  cadd (cadd P (cadd acc czero)) (cadd Part' czero) = cadd P (cadd Part czero).
Proof. intros. counters. Qed.

Lemma csum_app (l k : list Counters) : csum (l ++ k) = cadd (csum l) (csum k).
Proof.
  induction l as [|c l IH]; simpl; [by rewrite cadd_zero_l|].
  by rewrite IH, cadd_assoc.
Qed.

Lemma csum_perm (l k : list Counters) : l ≡ₚ k → csum l = csum k.
Proof.
  induction 1 as [|x l k _ IH|x y l|l k m _ IH1 _ IH2]; simpl.
  - done.
  - by rewrite IH.
  - by rewrite !cadd_assoc, (cadd_comm y x).
  - by rewrite IH1.
Qed.

Lemma drain_csum (its : list Counters) (acc : Counters) :
  drain its acc = cadd acc (csum its).
Proof.
  revert acc. induction its as [|c its IH]; intros acc; simpl.
  - by rewrite cadd_zero_r.
  - by rewrite IH, cadd_assoc.
Qed.

Lemma fold_left_cadd {A} (g : A → Counters) (l : list A) (acc : Counters) :
  fold_left (fun a f => cadd a (g f)) l acc = cadd acc (csum (map g l)).
Proof.
  revert acc. induction l as [|x l IH]; intros acc; simpl.
  - by rewrite cadd_zero_r.
  - by rewrite IH, cadd_assoc.
Qed.

(** ** Replacing one worker in the list of processes *)

Lemma insert_split {A} (l : list A) (i : nat) (x : A) :
  l !! i = Some x →
  ∃ l1 l2, l = l1 ++ x :: l2 ∧ ∀ y, <[i:=y]> l = l1 ++ y :: l2.
Proof.
  intros H. exists (take i l), (drop (S i) l). split.
  - symmetry. by apply take_drop_middle.
  - intros y. apply insert_take_drop. by eapply lookup_lt_Some.
Qed.

Lemma published_app (l k : list proc) :
  published (l ++ k) = published l ++ published k.
Proof. apply omap_app. Qed.

Lemma running_app (l k : list proc) : running (l ++ k) = running l + running k.
Proof. apply sum_list_with_app. Qed.

Lemma published_cons (p : proc) (ps : list proc) :
  published (p :: ps)
  = match published_of p with
    | Some a => a :: published ps
    | None => published ps
    end.
Proof. done. Qed.

Lemma running_cons (p : proc) (ps : list proc) :
  running (p :: ps) = (if exited p then 0 else 1) + running ps.
Proof. done. Qed.

Lemma published_running_length (ps : list proc) :
  length (published ps) + running ps ≤ length ps.
Proof.
  induction ps as [|p ps IH]; [done|].
  rewrite published_cons, running_cons. destruct p; simpl; lia.
Qed.

Lemma running_zero_exited (ps : list proc) :
  running ps = 0 ↔ forallb exited ps = true.
Proof.
  induction ps as [|p ps IH]; [done|].
  rewrite running_cons. destruct p; simpl; [split; [lia|done]|done..].
Qed.

Lemma find_running (ps : list proc) :
  forallb exited ps = true ∨ ∃ i acc, ps !! i = Some (Running acc).
Proof.
  induction ps as [|p ps [IH|(i & acc & IH)]].
  - by left.
  - destruct p as [acc| |]; simpl; [right; by exists 0, acc|by left..].
  - right. by exists (S i), acc.
Qed.

Lemma running_replicate (n : nat) (c : Counters) :
  running (replicate n (Running c)) = n.
Proof.
  induction n as [|n IH]; [done|].
  rewrite replicate_S, running_cons, IH. done.
Qed.

Lemma published_replicate (n : nat) (c : Counters) :
  published (replicate n (Running c)) = [].
Proof.
  induction n as [|n IH]; [done|].
  by rewrite replicate_S, published_cons.
Qed.

Lemma insert_running (ps : list proc) (i : nat) (acc acc' : Counters) :
  ps !! i = Some (Running acc) →
  running (<[i:=Running acc']> ps) = running ps
  ∧ published (<[i:=Running acc']> ps) = published ps
  ∧ cadd (csum (map partial_of (<[i:=Running acc']> ps))) acc
    = cadd (csum (map partial_of ps)) acc'.
Proof.
  intros H. destruct (insert_split _ _ _ H) as (l1 & l2 & Hl & Hins).
  rewrite Hins, Hl.
  rewrite !running_app, !published_app, !map_app, !csum_app,
    !running_cons, !published_cons.
  repeat split; simpl.
  generalize (csum (map partial_of l1)) (csum (map partial_of l2)).
  intros. counters.
Qed.

Lemma insert_published (ps : list proc) (i : nat) (acc : Counters) :
  ps !! i = Some (Running acc) →
  S (running (<[i:=Published acc]> ps)) = running ps
  ∧ published (<[i:=Published acc]> ps) ≡ₚ published ps ++ [acc]
  ∧ cadd (csum (map partial_of (<[i:=Published acc]> ps))) acc
    = csum (map partial_of ps).
Proof.
  intros H. destruct (insert_split _ _ _ H) as (l1 & l2 & Hl & Hins).
  rewrite Hins, Hl.
  rewrite !running_app, !published_app, !map_app, !csum_app,
    !running_cons, !published_cons.
  repeat split; simpl.
  - lia.
  - rewrite <- app_assoc. apply Permutation_app_head.
    by rewrite (Permutation_app_comm _ [acc]).
  - generalize (csum (map partial_of l1)) (csum (map partial_of l2)).
    intros. counters.
Qed.

Lemma insert_crashed (ps : list proc) (i : nat) (acc : Counters) :
  ps !! i = Some (Running acc) →
  S (running (<[i:=Crashed]> ps)) = running ps
  ∧ published (<[i:=Crashed]> ps) = published ps.
Proof.
  intros H. destruct (insert_split _ _ _ H) as (l1 & l2 & Hl & Hins).
  rewrite Hins, Hl.
  rewrite !running_app, !published_app, !running_cons, !published_cons.
  split; simpl; [lia|done].
Qed.

(** ** The queues *)

Lemma queue_get_inv {A} (q q' : Queue.t A) (x : A) :
  Queue.get q = Some (x, q') →
  Queue.items q = x :: Queue.items q' ∧ Queue.maxsize q' = Queue.maxsize q.
Proof.
  unfold Queue.get. destruct (Queue.items q) eqn:E; [done|].
  by intros [= <- <-].
Qed.

Lemma queue_put_inv {A} (q q' : Queue.t A) (x : A) :
  Queue.put q x = Some q' →
  Queue.items q' = Queue.items q ++ [x] ∧ Queue.maxsize q' = Queue.maxsize q.
Proof.
  unfold Queue.put. destruct (Queue.full q); [done|]. by intros [= <-].
Qed.

Lemma queue_put_room {A} (q : Queue.t A) (x : A) :
  (Z.of_nat (length (Queue.items q)) < Queue.maxsize q ∨ Queue.maxsize q ≤ 0)%Z →
  Queue.put q x = Some (Queue.mk (Queue.maxsize q) (Queue.items q ++ [x])).
Proof.
  intros H. unfold Queue.put, Queue.full.
  destruct (Z.ltb_spec 0 (Queue.maxsize q)),
    (Z.leb_spec (Queue.maxsize q) (Z.of_nat (length (Queue.items q))));
    simpl; try done; lia.
Qed.

Lemma queue_put_all_room {A} (xs : list A) (q : Queue.t A) :
  (Z.of_nat (length (Queue.items q) + length xs) ≤ Queue.maxsize q
   ∨ Queue.maxsize q ≤ 0)%Z →
  Queue.put_all q xs = Some (Queue.mk (Queue.maxsize q) (Queue.items q ++ xs)).
Proof.
  revert q. induction xs as [|x xs IH]; intros q H; simpl.
  - rewrite app_nil_r. by destruct q.
  - rewrite queue_put_room by (simpl in H; lia).
    rewrite IH; simpl.
    + by rewrite <- app_assoc.
    + rewrite length_app. simpl in *. lia.
Qed.

(** The head of a queue of paths followed by sentinels. *)
Lemma work_queue_head (rest : list str) (k : nat) (item : option str)
    (tl : list (option str)) :
  map Some rest ++ replicate k None = item :: tl →
  (∃ f rest', item = Some f ∧ rest = f :: rest'
              ∧ tl = map Some rest' ++ replicate k None)
  ∨ (item = None ∧ rest = [] ∧ ∃ k', k = S k' ∧ tl = replicate k' None).
Proof.
  destruct rest as [|f rest]; simpl.
  - destruct k as [|k]; [done|]. simpl. intros [= <- <-]. right. eauto.
  - intros [= <- <-]. left. eauto.
Qed.

(** ** The parallel run *)

Section ParallelFacts.

Context {Opts : Type}.
Context (main :
    str → option str → list str → list str → option str → Opts → outcome Counters).
Context (src_base : str) (out_base outfile : option str) (options : Opts).

Local Abbreviation step := (pstep Opts main src_base out_base outfile options).
Local Abbreviation move := (pmove Opts main src_base out_base outfile options).
Local Abbreviation exec := (run Opts main src_base out_base outfile options).

Lemma pstep_pmove (ev : pevent) (st st' : pstate) :
    step ev st = Some st' → move st st'.
Proof.
    unfold pstep. destruct ev as [i|i e];
      destruct (procs st !! i) as [[acc| |]|] eqn:Hi; try done.
    - destruct (Queue.get (fqueue st)) as [[[f|] fq]|] eqn:Hg; try done.
      + destruct (main _ _ _ _ _ _) as [c|e] eqn:Hm.
        * intros [= <-]. by eapply move_work.
        * unfold handle, publish.
          destruct e; try destruct (Queue.put _ _) eqn:Hp; intros [= <-];
            first [ by eapply (move_publish _ _ _ _ _ _ _ _ i acc (Some (Some f)))
                  | by eapply (move_crash _ _ _ _ _ _ _ _ i acc (Some (Some f))) ].
      + unfold publish. destruct (Queue.put _ _) eqn:Hp; intros [= <-].
        by eapply (move_publish _ _ _ _ _ _ _ _ i acc (Some None)).
    - unfold handle, publish.
      destruct e; try destruct (Queue.put _ _) eqn:Hp; intros [= <-];
        first [ by eapply (move_publish _ _ _ _ _ _ _ _ i acc None)
              | by eapply (move_crash _ _ _ _ _ _ _ _ i acc None) ].
Qed.

  (** What a taken item leaves of a queue of paths and sentinels. *)
Lemma takes_queue (st st' : pstate) (taken : option (option str))
      (rest : list str) (k : nat) :
    takes st st' taken →
    Queue.items (fqueue st) = map Some rest ++ replicate k None →
    match taken with
    | None => Queue.items (fqueue st') = map Some rest ++ replicate k None
    | Some (Some f) =>
        ∃ rest', rest = f :: rest'
                 ∧ Queue.items (fqueue st') = map Some rest' ++ replicate k None
    | Some None =>
        rest = [] ∧ ∃ k', k = S k' ∧ Queue.items (fqueue st') = replicate k' None
    end.
Proof.
    destruct taken as [item|]; simpl; [|by intros ->].
    intros Hg Hq. apply queue_get_inv in Hg as [Hg _]. rewrite Hg in Hq.
    symmetry in Hq. apply work_queue_head in Hq
      as [(f & rest' & -> & -> & Htl)|(-> & -> & k' & -> & Htl)]; eauto.
Qed.

Lemma pmove_inv (numproc : Z) (st st' : pstate) :
    inv numproc st → move st st' → inv numproc st'.
Proof.
    intros (Hlen & Hmax & Hperm & rest & k & Hq & Hk) Hmove.
    destruct Hmove as [i acc c f Hi Ht Hm Hr Hp
                      |i acc taken Hi Ht Hput Hp
                      |i acc taken Hi Hne Ht Hr Hp].
    - destruct (insert_running _ _ _ (cadd acc c) Hi) as (Hrun & Hpub & _).
      destruct (takes_queue _ _ _ _ _ Ht Hq) as (rest' & -> & Hq').
      rewrite <- Hp in Hrun, Hpub.
      repeat split.
      + by rewrite Hp, length_insert.
      + by rewrite Hr.
      + by rewrite Hr, Hpub.
      + exists rest', k. split; [done|lia].
    - destruct (insert_published _ _ _ Hi) as (Hrun & Hpub & _).
      apply queue_put_inv in Hput as [Hitems Hmax'].
      rewrite <- Hp in Hrun, Hpub.
      repeat split.
      + by rewrite Hp, length_insert.
      + by rewrite Hmax'.
      + by rewrite Hitems, Hpub, Hperm.
      + pose proof (takes_queue _ _ _ _ _ Ht Hq) as Hq'.
        destruct taken as [[f|]|].
        * destruct Hq' as (rest' & -> & Hq'). exists rest', k. split; [done|lia].
        * destruct Hq' as (-> & k' & -> & Hq'). exists [], k'. split; [done|lia].
        * exists rest, k. split; [done|lia].
    - destruct (insert_crashed _ _ _ Hi) as (Hrun & Hpub).
      rewrite <- Hp in Hrun, Hpub.
      repeat split.
      + by rewrite Hp, length_insert.
      + by rewrite Hr.
      + by rewrite Hr, Hpub.
      + pose proof (takes_queue _ _ _ _ _ Ht Hq) as Hq'.
        destruct taken as [[f|]|]; [|done|].
        * destruct Hq' as (rest' & -> & Hq'). exists rest', k. split; [done|lia].
        * exists rest, k. split; [done|lia].
Qed.

Lemma exec_cons (ev : pevent) (sched : list pevent) (st : pstate) :
    exec (ev :: sched) st = exec sched (default st (step ev st)).
Proof. done. Qed.

Lemma exec_app (s1 s2 : list pevent) (st : pstate) :
    exec (s1 ++ s2) st = exec s2 (exec s1 st).
Proof. apply fold_left_app. Qed.

Lemma exec_inv (numproc : Z) (sched : list pevent) (st : pstate) :
    inv numproc st → inv numproc (exec sched st).
Proof.
    revert st. induction sched as [|ev sched IH]; intros st Hinv; [done|].
    rewrite exec_cons. apply IH.
    destruct (step ev st) as [st'|] eqn:E; [|done].
    eapply pmove_inv; [done|]. by eapply pstep_pmove.
Qed.

  (** A worker that has ended stays as it is. *)
Lemma pmove_exited (st st' : pstate) (j : nat) (p : proc) :
    move st st' → procs st !! j = Some p → exited p = true →
    procs st' !! j = Some p.
Proof.
    intros Hmove Hj Hex.
    assert (∀ i acc q, procs st !! i = Some (Running acc) →
                       procs st' = <[i:=q]> (procs st) → procs st' !! j = Some p)
      as Haux.
    { intros i acc q Hi ->. rewrite list_lookup_insert_ne; [done|].
      intros ->. rewrite Hi in Hj. injection Hj as <-. done. }
    destruct Hmove; eauto.
Qed.

Lemma exec_exited (sched : list pevent) (st : pstate) (j : nat) (p : proc) :
    procs st !! j = Some p → exited p = true →
    procs (exec sched st) !! j = Some p.
Proof.
    revert st. induction sched as [|ev sched IH]; intros st Hj Hex; [done|].
    rewrite exec_cons. apply IH; [|done].
    destruct (step ev st) as [st'|] eqn:E; [|done].
    eapply pmove_exited; [|done..]. by eapply pstep_pmove.
Qed.

Lemma running_lookup (ps : list proc) (i : nat) (acc : Counters) :
    ps !! i = Some (Running acc) → 1 ≤ running ps.
Proof.
    intros H. destruct (insert_split _ _ _ H) as (l1 & l2 & -> & _).
    rewrite running_app, running_cons. simpl. lia.
Qed.

  (** [rqueue.put] never blocks a worker. *)
Lemma publish_room (numproc : Z) (st : pstate) (i : nat) (acc : Counters) :
    inv numproc st → procs st !! i = Some (Running acc) →
    Queue.put (rqueue st) acc
    = Some (Queue.mk (Queue.maxsize (rqueue st)) (Queue.items (rqueue st) ++ [acc])).
Proof.
    intros (Hlen & Hmax & Hperm & _) Hi.
    apply queue_put_room.
    pose proof (published_running_length (procs st)) as Hc.
    pose proof (running_lookup _ _ _ Hi) as Hr.
    apply Permutation_length in Hperm.
    rewrite Hmax. lia.
Qed.

  (** A worker in its loop always finds an item on [fqueue], and its turn
      shortens the queue. *)
Lemma get_enabled (numproc : Z) (st : pstate) (i : nat) (acc : Counters) :
    inv numproc st → procs st !! i = Some (Running acc) →
    ∃ st', step (Get i) st = Some st'
           ∧ length (Queue.items (fqueue st'))
             < length (Queue.items (fqueue st)).
Proof.
    intros Hinv Hi.
    pose proof (publish_room _ _ _ _ Hinv Hi) as Hput.
    destruct Hinv as (_ & _ & _ & rest & k & Hq & Hk).
    pose proof (running_lookup _ _ _ Hi) as Hr.
    unfold pstep, Queue.get. rewrite Hi.
    destruct (Queue.items (fqueue st)) as [|item tl] eqn:Hitems.
    { destruct rest; [|done]. destruct k; [lia|done]. }
    destruct item as [f|].
    - destruct (main _ _ _ _ _ _) as [c|e].
      + eexists. split; [done|]. simpl. lia.
      + unfold handle, publish. rewrite Hput.
        destruct e; (eexists; split; [done|]; simpl; lia).
    - unfold publish. rewrite Hput. eexists. split; [done|]. simpl. lia.
Qed.

  (** Every state can be run to the end by turns of the workers alone. *)
Lemma completion (numproc : Z) (n : nat) (st : pstate) :
    length (Queue.items (fqueue st)) ≤ n → inv numproc st →
    ∃ sched, forallb is_get sched = true
             ∧ forallb exited (procs (exec sched st)) = true.
Proof.
    revert st. induction n as [|n IH]; intros st Hn Hinv.
    - destruct (find_running (procs st)) as [Hall|(i & acc & Hi)].
      + by exists [].
      + destruct (get_enabled _ _ _ _ Hinv Hi) as (st' & _ & Hlt). lia.
    - destruct (find_running (procs st)) as [Hall|(i & acc & Hi)].
      + by exists [].
      + destruct (get_enabled _ _ _ _ Hinv Hi) as (st' & Hst & Hlt).
        destruct (IH st') as (sched & Hg & Hex).
        * lia.
        * eapply pmove_inv; [done|]. by eapply pstep_pmove.
        * exists (Get i :: sched). split; [done|].
          by rewrite exec_cons, Hst.
Qed.

  (** *** Runs in which no worker is interrupted and [main] returns *)

Context (g : str → Counters).
Context (Hmain : ∀ f, main src_base out_base [f] [] outfile options = Ret (g f)).

Lemma step_get_inv_work (pyc_paths : list str) (i : nat) (st st' : pstate) :
    inv_work g pyc_paths st → step (Get i) st = Some st' →
    inv_work g pyc_paths st'.
Proof.
    intros (rest & Hq & Hrest & Hsum). unfold pstep.
    destruct (procs st !! i) as [[acc| |]|] eqn:Hi; try done.
    destruct (Queue.get (fqueue st)) as [[[f|] fq]|] eqn:Hg; try done.
    - rewrite Hmain. intros [= <-]. unfold inv_work. cbn [procs fqueue rqueue].
      apply queue_get_inv in Hg as [Hg _]. rewrite Hg in Hq. symmetry in Hq.
      apply work_queue_head in Hq
        as [(f' & rest' & [= <-] & -> & Htl)|(? & _)]; [|done].
      destruct (insert_running _ _ _ (cadd acc (g f)) Hi) as (Hrun & Hpub & Hpart).
      exists rest'. rewrite Hrun, Hpub, length_insert.
      split; [done|]. split; [by intros Hlt; specialize (Hrest Hlt)|].
      rewrite <- Hsum.
      change (csum (map g (f :: rest'))) with (cadd (g f) (csum (map g rest'))).
      by apply (counters_work _ _ _ _ acc).
    - unfold publish. destruct (Queue.put (rqueue st) acc) eqn:Hput; [|done].
      intros [= <-]. unfold inv_work. cbn [procs fqueue rqueue].
      apply queue_get_inv in Hg as [Hg _]. rewrite Hg in Hq. symmetry in Hq.
      apply work_queue_head in Hq
        as [(f' & _ & ? & _)|(_ & -> & k' & Hk & Htl)]; [done|].
      destruct (insert_published _ _ _ Hi) as (Hrun & Hpub & Hpart).
      exists []. rewrite length_insert.
      assert (running (<[i:=Published acc]> (procs st)) = k') as -> by lia.
      split; [done|]. split; [done|].
      rewrite <- Hsum, (csum_perm _ _ Hpub), csum_app.
      change (csum (map g [])) with czero. change (csum [acc]) with (cadd acc czero).
      by apply counters_publish.
Qed.

Lemma exec_inv_work (pyc_paths : list str) (sched : list pevent) (st : pstate) :
    forallb is_get sched = true →
    inv_work g pyc_paths st → inv_work g pyc_paths (exec sched st).
Proof.
    revert st. induction sched as [|ev sched IH]; intros st Hg Hw; [done|].
    simpl in Hg. apply andb_prop in Hg as [Hev Hg].
    rewrite exec_cons. apply IH; [done|].
    destruct ev as [i|]; [|done].
    destruct (step (Get i) st) as [st'|] eqn:E; [|done].
    by eapply step_get_inv_work.
Qed.

End ParallelFacts.

Lemma partial_exited (ps : list proc) :
  forallb exited ps = true → csum (map partial_of ps) = czero.
Proof.
  induction ps as [|p ps IH]; [done|]. simpl.
  intros [Hp Hps]%andb_prop. rewrite IH by done.
  by destruct p.
Qed.

Lemma partial_replicate (n : nat) :
  csum (map partial_of (replicate n (Running czero))) = czero.
Proof. induction n as [|n IH]; [done|]. simpl. by rewrite IH. Qed.

Lemma crashed_not_published (ps : list proc) :
  Crashed ∈ ps → length (published ps) + running ps < length ps.
Proof.
  induction ps as [|p ps IH]; intros H; [by apply elem_of_nil in H|].
  rewrite published_cons, running_cons.
  pose proof (published_running_length ps) as Hle.
  apply elem_of_cons in H as [<-|H]; [simpl; lia|].
  specialize (IH H). destruct p; simpl; lia.
Qed.

(** ** Filling the work queue and starting the workers *)

Lemma fill_spec (pyc_paths : list str) (numproc : Z) :
  (0 ≤ numproc)%Z →
  fill pyc_paths numproc
  = Some (Queue.mk (Z.of_nat (length pyc_paths) + numproc)
            (map Some pyc_paths ++ replicate (Z.to_nat numproc) None)).
Proof.
  intros H. unfold fill, Queue.new.
  rewrite queue_put_all_room; simpl.
  - rewrite queue_put_all_room; simpl; [done|].
    rewrite length_map, length_replicate. lia.
  - rewrite length_map. lia.
Qed.

Lemma start_inv (pyc_paths : list str) (numproc : Z) (fq : Queue.t (option str)) :
  (0 ≤ numproc)%Z → fill pyc_paths numproc = Some fq →
  inv numproc (start numproc fq).
Proof.
  intros H. rewrite fill_spec by done. intros [= <-].
  unfold inv, start. simpl.
  rewrite length_replicate, published_replicate, running_replicate.
  repeat split; [done|]. by exists pyc_paths, (Z.to_nat numproc).
Qed.

Lemma start_inv_work (g : str → Counters) (pyc_paths : list str) (numproc : Z)
    (fq : Queue.t (option str)) :
  (0 ≤ numproc)%Z → fill pyc_paths numproc = Some fq →
  inv_work g pyc_paths (start numproc fq).
Proof.
  intros H. rewrite fill_spec by done. intros [= <-].
  unfold inv_work, start. simpl.
  rewrite length_replicate, published_replicate, running_replicate,
    partial_replicate.
  exists pyc_paths. split; [done|]. split; [lia|].
  simpl. by rewrite !cadd_zero_l.
Qed.

Lemma work_total (g : str → Counters) (pyc_paths : list str) (numproc : Z)
    (st : pstate) :
  (0 < numproc)%Z → inv numproc st → inv_work g pyc_paths st →
  forallb exited (procs st) = true →
  drain (Queue.items (rqueue st)) czero = csum (map g pyc_paths).
Proof.
  intros Hn (Hlen & _ & Hperm & _) (rest & _ & Hrest & Hsum) Hex.
  rewrite drain_csum, cadd_zero_l, (csum_perm _ _ Hperm).
  apply running_zero_exited in Hex as Hrun.
  rewrite Hrest in Hsum by lia.
  rewrite partial_exited in Hsum by done.
  change (csum (map g [])) with czero in Hsum.
  by rewrite !cadd_zero_r in Hsum.
Qed.

(** C5: in parallel mode the work queue is created with room for
    [len(pyc_paths) + numproc] items; filling it with every path and then
    one sentinel per worker never blocks, the items put are as many as the
    queue has room for, and the workers start from the filled queue. *)
Theorem C5_work_queue_filled {Opts : Type}
    (main : str → option str → list str → list str → option str → Opts
            → outcome Counters)
    (src_base : str) (out_base outfile : option str) (options : Opts)
    (pyc_paths : list str) (numproc : Z) :
  (1 < numproc)%Z →
  ∃ fq,
    fill pyc_paths numproc = Some fq
    ∧ Queue.maxsize fq = (Z.of_nat (length pyc_paths) + numproc)%Z
    ∧ Queue.items fq = map Some pyc_paths ++ replicate (Z.to_nat numproc) None
    ∧ Z.of_nat (length (Queue.items fq)) = Queue.maxsize fq
    ∧ fqueue (start numproc fq) = fq
    ∧ procs (start numproc fq) = replicate (Z.to_nat numproc) (Running czero)
    ∧ ∀ sched,
        parallel_dispatch Opts main src_base out_base outfile options
          pyc_paths numproc sched
        = collect (run Opts main src_base out_base outfile options sched
                     (start numproc fq)).
Proof.
  intros Hn. eexists. split; [apply fill_spec; lia|]. simpl.
  repeat split.
  - rewrite length_app, length_map, length_replicate. lia.
  - intros sched. unfold parallel_dispatch. by rewrite fill_spec by lia.
Qed.

(** C4: whatever the workers do, they can all come to an end, so the joins
    return; and once all workers have ended, also when some of them ended
    without publishing, the drain loop ends and the summary is the sum of
    the tuples that were published, which are then fewer than the workers. *)
Theorem C4_drain_sums_what_was_published {Opts : Type}
    (main : str → option str → list str → list str → option str → Opts
            → outcome Counters)
    (src_base : str) (out_base outfile : option str) (options : Opts)
    (pyc_paths : list str) (numproc : Z) (sched : list pevent) :
  (1 < numproc)%Z →
  ∃ fq,
    fill pyc_paths numproc = Some fq
    ∧ (∃ more,
         forallb exited
           (procs (run Opts main src_base out_base outfile options
                     (sched ++ more) (start numproc fq))) = true)
    ∧ ∀ st,
        st = run Opts main src_base out_base outfile options sched
               (start numproc fq) →
        forallb exited (procs st) = true →
        parallel_dispatch Opts main src_base out_base outfile options
          pyc_paths numproc sched
        = ([PrintSummary (csum (published (procs st)))], Ok tt)
        ∧ Queue.items (rqueue st) ≡ₚ published (procs st)
        ∧ (Crashed ∈ procs st →
           length (Queue.items (rqueue st)) < Z.to_nat numproc).
Proof.
  intros Hn.
  assert (H0 : (0 ≤ numproc)%Z) by lia.
  pose proof (fill_spec pyc_paths numproc H0) as Hfill.
  eexists. split; [exact Hfill|].
  pose proof (start_inv _ _ _ H0 Hfill) as Hstart.
  pose proof (exec_inv main src_base out_base outfile options _ sched _ Hstart)
    as Hinv.
  split.
  - destruct (completion main src_base out_base outfile options _ _ _
                (Nat.le_refl _) Hinv) as (more & _ & Hex).
    exists more. by rewrite exec_app.
  - intros st -> Hex.
    destruct Hinv as (Hlen & _ & Hperm & _).
    split; [|split; [done|]].
    + unfold parallel_dispatch, collect. rewrite Hfill, Hex.
      by rewrite drain_csum, cadd_zero_l, (csum_perm _ _ Hperm).
    + intros Hc. apply crashed_not_published in Hc.
      apply Permutation_length in Hperm. lia.
Qed.

(** C7: a worker in its loop that meets [KeyboardInterrupt] or [Empty],
    while waiting on the work queue or from [main], puts its counters as
    they are on the result queue and ends as published, not as crashed;
    from then on it takes no item and publishes nothing more. *)
Theorem C7_interrupted_worker_publishes_once {Opts : Type}
    (main : str → option str → list str → list str → option str → Opts
            → outcome Counters)
    (src_base : str) (out_base outfile : option str) (options : Opts)
    (pyc_paths : list str) (numproc : Z) (fq : Queue.t (option str))
    (sched : list pevent) (st : pstate) (i : nat) (acc : Counters)
    (ev : pevent) (e : exn) :
  (1 < numproc)%Z →
  fill pyc_paths numproc = Some fq →
  st = run Opts main src_base out_base outfile options sched (start numproc fq) →
  procs st !! i = Some (Running acc) →
  e = KeyboardInterrupt ∨ e = Empty →
  ev = Throw i e
  ∨ (ev = Get i
     ∧ ∃ f fq', Queue.get (fqueue st) = Some (Some f, fq')
                ∧ main src_base out_base [f] [] outfile options = Raise e) →
  ∃ st',
    pstep Opts main src_base out_base outfile options ev st = Some st'
    ∧ procs st' = <[i:=Published acc]> (procs st)
    ∧ Queue.items (rqueue st') = Queue.items (rqueue st) ++ [acc]
    ∧ (ev = Throw i e → fqueue st' = fqueue st)
    ∧ ∀ later st'',
        st'' = run Opts main src_base out_base outfile options later st' →
        procs st'' !! i = Some (Published acc)
        ∧ (∀ ev', worker_of ev' = i →
             pstep Opts main src_base out_base outfile options ev' st'' = None)
        ∧ Queue.items (rqueue st'') ≡ₚ published (procs st'').
Proof.
  intros Hn Hfill -> Hi He Hev.
  set (st := run Opts main src_base out_base outfile options sched
               (start numproc fq)) in *.
  assert (Hinv : inv numproc st).
  { apply exec_inv. eapply start_inv; [lia|done]. }
  pose proof (publish_room _ _ _ _ Hinv Hi) as Hput.
  assert (∃ fq',
    pstep Opts main src_base out_base outfile options ev st
    = Some (mk_pstate fq'
              (Queue.mk (Queue.maxsize (rqueue st)) (Queue.items (rqueue st) ++ [acc]))
              (<[i:=Published acc]> (procs st)))
    ∧ (ev = Throw i e → fq' = fqueue st)) as (fq' & Hstep & Hfq).
  { destruct Hev as [->|(-> & f & fq' & Hg & Hm)].
    - exists (fqueue st). split; [|done].
      unfold pstep, handle, publish. rewrite Hi.
      by destruct He as [-> | ->]; rewrite Hput.
    - exists fq'. split; [|done].
      unfold pstep, handle, publish. rewrite Hi, Hg, Hm.
      by destruct He as [-> | ->]; rewrite Hput. }
  eexists. split; [exact Hstep|]. simpl.
  split; [done|]. split; [done|]. split; [exact Hfq|].
  intros later st'' ->.
  set (st' := mk_pstate _ _ _) in *.
  assert (Hinv' : inv numproc st').
  { eapply pmove_inv; [exact Hinv|]. by eapply pstep_pmove. }
  assert (Hi' : procs st' !! i = Some (Published acc)).
  { simpl. apply list_lookup_insert_eq. by eapply lookup_lt_Some. }
  pose proof (exec_exited main src_base out_base outfile options later _ _ _
                Hi' eq_refl) as Hlater.
  split; [done|]. split.
  - intros ev' <-. unfold pstep. destruct ev'; simpl in *; by rewrite Hlater.
  - by apply (exec_inv main src_base out_base outfile options numproc later) in Hinv'
      as (_ & _ & Hperm & _).
Qed.

(** *** Runs in which [main] returns for the paths at hand *)



Section WorkOnPaths.

Context {Opts : Type}.
Context (main :
  str → option str → list str → list str → option str → Opts → outcome Counters).
Context (src_base : str) (out_base outfile : option str) (options : Opts).
Context (g : str → Counters) (pyc_paths : list str).
Context (Hmain : ∀ f, f ∈ pyc_paths →
                      main src_base out_base [f] [] outfile options = Ret (g f)).

Local Abbreviation step := (pstep Opts main src_base out_base outfile options).
Local Abbreviation move := (pmove Opts main src_base out_base outfile options).
Local Abbreviation exec := (run Opts main src_base out_base outfile options).




End WorkOnPaths.




(** ** [main_bin] *)

Section MainBinFacts.

Context {Opts : Type}.
Context (main :
    str → option str → list str → list str → option str → Opts → outcome Counters).
Context (status_msg : Counters → str).
Context (isdir : str → bool) (walk : str → list (str * list str * list str)).
Context (kwargs : option str → bool * bool → Opts).

Local Abbreviation run_main_bin :=
    (main_bin Opts main status_msg isdir walk kwargs).

Lemma main_bin_serial (s : Settings Opts) (sched : list pevent)
      (src_base : str) (rel : list str) :
    path_reduce (input_paths Opts isdir walk s) = Some (src_base, rel) →
    rel ≠ [] → (numproc_opt s ≤ 1)%Z →
    run_main_bin s sched
    = (when (timestamp s) (emit PrintTimestamp) ;;;
       serial_dispatch Opts main status_msg src_base
         (resolve_out isdir (outfile_opt s) rel).1 rel (source_paths s)
         (resolve_out isdir (outfile_opt s) rel).2
         (kwargs (asm_opt Opts s) (show_ast Opts s)) ;;;
       when (timestamp s) (emit PrintTimestamp)).
Proof.
    intros Hr Hne Hn. unfold main_bin. rewrite Hr.
    destruct rel as [|f rel]; [done|]. cbn [truthy negb when].
    destruct (resolve_out isdir (outfile_opt s) (f :: rel)) as [ob outf].
    apply Z.leb_le in Hn. rewrite Hn. cbn [fst snd].
    unfold m_bind at 1. unfold m_ret. cbn [app].
    by destruct (_ ;;; _).
Qed.

Lemma expanded_files_app (l k : list str) :
    expanded_files isdir walk (l ++ k)
    = expanded_files isdir walk l ++ expanded_files isdir walk k.
Proof. apply flat_map_app. Qed.

Lemma main_bin_input (s s' : Settings Opts) (sched : list pevent) :
    input_paths Opts isdir walk s = input_paths Opts isdir walk s' →
    outfile_opt s = outfile_opt s' → numproc_opt s = numproc_opt s' →
    timestamp s = timestamp s' → source_paths s = source_paths s' →
    asm_opt Opts s = asm_opt Opts s' → show_ast Opts s = show_ast Opts s' →
    options s = options s' →
    run_main_bin s sched = run_main_bin s' sched.
Proof.
    intros H1 H2 H3 H4 H5 H6 H7 H8. unfold main_bin.
    by rewrite H1, H2, H3, H4, H5, H6, H7, H8.
Qed.

End MainBinFacts.

(** C8: when there is no input path (none given, or none found under
    [-r]), the run writes "No files given" to standard error, prints the
    usage text and exits with status 1; [main] is not called and no worker
    is started. *)
Theorem C8_no_files_is_a_usage_error {Opts : Type}
    (main : str → option str → list str → list str → option str → Opts
            → outcome Counters)
    (status_msg : Counters → str)
    (isdir : str → bool) (walk : str → list (str * list str * list str))
    (kwargs : option str → bool * bool → Opts)
    (s : Settings Opts) (sched : list pevent) :
  input_paths Opts isdir walk s = [] →
  main_bin Opts main status_msg isdir walk kwargs s sched
  = ([StderrWrite (lit "No files given
"); Print __doc__], Exit 1)
  ∧ (1 ≠ 0)%Z
  ∧ ∀ ev, ev ∈ (main_bin Opts main status_msg isdir walk kwargs s sched).1 →
          (∀ fs srcs, ev ≠ CallMain fs srcs) ∧ (∀ c, ev ≠ PrintSummary c).
Proof.
  intros H.
  assert (Hrun : main_bin Opts main status_msg isdir walk kwargs s sched
                 = ([StderrWrite (lit "No files given
"); Print __doc__], Exit 1)).
  { unfold main_bin. rewrite H. reflexivity. }
  split; [done|]. split; [done|].
  rewrite Hrun. simpl. intros ev Hev.
  apply elem_of_cons in Hev as [->|Hev]; [done|].
  apply elem_of_cons in Hev as [->|Hev]; [done|].
  by apply elem_of_nil in Hev.
Qed.

(** C9: in serial mode, when [main] raises [VerifyCmpError] the exception
    leaves [main_bin]: the run ends there, with neither summary nor
    closing timestamp; when [main] raises [KeyboardInterrupt] the
    exception is caught, and [main_bin] goes on to its end and returns. *)
Theorem C9_serial_verify_error_propagates {Opts : Type}
    (main : str → option str → list str → list str → option str → Opts
            → outcome Counters)
    (status_msg : Counters → str)
    (isdir : str → bool) (walk : str → list (str * list str * list str))
    (kwargs : option str → bool * bool → Opts)
    (s : Settings Opts) (sched : list pevent)
    (src_base : str) (rel : list str) (e : exn) :
  path_reduce (input_paths Opts isdir walk s) = Some (src_base, rel) →
  rel ≠ [] →
  (numproc_opt s ≤ 1)%Z →
  main src_base (resolve_out isdir (outfile_opt s) rel).1 rel (source_paths s)
    (resolve_out isdir (outfile_opt s) rel).2
    (kwargs (asm_opt Opts s) (show_ast Opts s)) = Raise e →
  (e = VerifyCmpError →
   main_bin Opts main status_msg isdir walk kwargs s sched
   = (stamp s ++ [CallMain rel (source_paths s)], Exc VerifyCmpError))
  ∧ (e = KeyboardInterrupt →
     main_bin Opts main status_msg isdir walk kwargs s sched
     = (stamp s ++ [CallMain rel (source_paths s)] ++ stamp s, Ok tt)).
Proof.
  intros Hr Hne Hn Hm.
  rewrite (main_bin_serial _ _ _ _ _ _ _ _ _ Hr Hne Hn).
  unfold serial_dispatch, call_main, stamp. rewrite Hm.
  split; intros ->; by destruct (timestamp s).
Qed.

(** C10: under [-r] the paths processed are exactly the files ending in
    ".pyc" or ".pyo" that [os.walk] finds under the arguments that are
    directories; an argument that is not a directory adds nothing, and
    the run is the same as if it had not been given. *)
Theorem C10_recurse_keeps_only_walked_files {Opts : Type}
    (main : str → option str → list str → list str → option str → Opts
            → outcome Counters)
    (status_msg : Counters → str)
    (isdir : str → bool) (walk : str → list (str * list str * list str))
    (kwargs : option str → bool * bool → Opts)
    (s : Settings Opts) (sched : list pevent)
    (before after : list str) (f : str) :
  recurse_dirs s = true →
  files s = before ++ f :: after →
  isdir f = false →
  input_paths Opts isdir walk s = expanded_files isdir walk (before ++ after)
  ∧ main_bin Opts main status_msg isdir walk kwargs s sched
    = main_bin Opts main status_msg isdir walk kwargs
        (set_files s (before ++ after)) sched
  ∧ ∀ x, x ∈ input_paths Opts isdir walk s ↔
         ∃ d root dirs dir_files df,
           d ∈ before ++ after ∧ isdir d = true
           ∧ (root, dirs, dir_files) ∈ walk d
           ∧ df ∈ dir_files
           ∧ (endswith df (lit ".pyc") || endswith df (lit ".pyo")) = true
           ∧ x = join root df.
Proof.
  intros Hrec Hfiles Hf.
  assert (Hin : input_paths Opts isdir walk s
                = expanded_files isdir walk (before ++ after)).
  { unfold input_paths. rewrite Hrec, Hfiles.
    rewrite !expanded_files_app. f_equal.
    unfold expanded_files. simpl. by rewrite Hf. }
  split; [done|]. split.
  - apply main_bin_input; try done.
    rewrite Hin. unfold input_paths, set_files. simpl. by rewrite Hrec.
  - intros x. rewrite Hin. unfold expanded_files, expand_dir.
    rewrite list_elem_of_In, in_flat_map. split.
    + intros (d & Hd & Hx).
      destruct (isdir d) eqn:Hdir; [|done].
      apply in_flat_map in Hx as ([[root dirs] dir_files] & Hw & Hx).
      apply in_map_iff in Hx as (df & <- & Hdf).
      apply filter_In in Hdf as [Hdf Hwanted].
      exists d, root, dirs, dir_files, df.
      rewrite !list_elem_of_In. by repeat split.
    + intros (d & root & dirs & dir_files & df & Hd & Hdir & Hw & Hdf & Hwanted & ->).
      exists d. rewrite <- list_elem_of_In. split; [done|]. rewrite Hdir.
      apply in_flat_map. exists (root, dirs, dir_files).
      rewrite <- list_elem_of_In. split; [done|].
      apply in_map_iff. exists df. split; [done|].
      apply filter_In. rewrite <- list_elem_of_In. by split.
Qed.

(** ** The theorems at concrete inputs *)

Example parallel_run_with_a_crash :
  parallel_dispatch unit Demo.main (lit "lib") None None tt
    [lit "a.pyc"; lit "crash.pyc"; lit "c.pyc"] 2
    [Get 0; Get 1; Get 0; Get 0]
  = ([PrintSummary (2, 2, 0, 0)%Z], Ok tt).
Proof. by vm_compute. Qed.

Example parallel_run_interrupted :
  parallel_dispatch unit Demo.main (lit "lib") None None tt
    [lit "a.pyc"; lit "b.pyc"; lit "c.pyc"] 2
    [Get 0; Get 1; Throw 1 KeyboardInterrupt; Get 0; Get 0]
  = ([PrintSummary (3, 3, 0, 0)%Z], Ok tt).
Proof. by vm_compute. Qed.

Example parallel_run_unfinished :
  parallel_dispatch unit Demo.main (lit "lib") None None tt
    [lit "a.pyc"; lit "b.pyc"] 2 [Get 0; Get 1; Get 0]
  = ([], Waiting).
Proof. by vm_compute. Qed.

Example serial_run :
  main_bin unit Demo.main Demo.status_msg Demo.isdir Demo.walk Demo.kwargs
    (Demo.settings [lit "lib/a.pyc"; lit "lib/sub/b.pyo"] false 1) []
  = ([PrintTimestamp; CallMain [lit "a.pyc"; lit "sub/b.pyo"] [];
      Print (lit "# decompiled"); PrintTimestamp], Ok tt).
Proof. by vm_compute. Qed.

Example recursive_run :
  input_paths unit Demo.isdir Demo.walk
    (Demo.settings [lit "lib"; lit "x.pyc"] true 1)
  = [lit "lib/a.pyc"; lit "lib/sub/b.pyo"].
Proof. by vm_compute. Qed.


Lemma C4_drain_sums_what_was_published_witness :
  let paths := [lit "a.pyc"; lit "crash.pyc"; lit "c.pyc"] in
  let sched := [Get 0; Get 1; Get 0; Get 0] in
  (1 < 2)%Z
  ∧ ∃ fq,
      fill paths 2 = Some fq
      ∧ (∃ more,
           forallb exited
             (procs (run unit Demo.main (lit "lib") None None tt
                       (sched ++ more) (start 2 fq))) = true)
      ∧ ∀ st,
          st = run unit Demo.main (lit "lib") None None tt sched (start 2 fq) →
          forallb exited (procs st) = true →
          parallel_dispatch unit Demo.main (lit "lib") None None tt paths 2 sched
          = ([PrintSummary (csum (published (procs st)))], Ok tt)
          ∧ Queue.items (rqueue st) ≡ₚ published (procs st)
          ∧ (Crashed ∈ procs st → length (Queue.items (rqueue st)) < Z.to_nat 2).
Proof.
  intros paths sched.
  split; [lia|].
  apply (C4_drain_sums_what_was_published Demo.main (lit "lib") None None tt
           paths 2 sched).
  lia.
Defined.

Lemma C5_work_queue_filled_witness :
  let paths := [lit "a.pyc"; lit "b.pyc"; lit "c.pyc"] in
  (1 < 2)%Z
  ∧ ∃ fq,
      fill paths 2 = Some fq
      ∧ Queue.maxsize fq = (Z.of_nat (length paths) + 2)%Z
      ∧ Queue.items fq = map Some paths ++ replicate (Z.to_nat 2) None
      ∧ Z.of_nat (length (Queue.items fq)) = Queue.maxsize fq
      ∧ fqueue (start 2 fq) = fq
      ∧ procs (start 2 fq) = replicate (Z.to_nat 2) (Running czero)
      ∧ ∀ sched,
          parallel_dispatch unit Demo.main (lit "lib") None None tt paths 2 sched
          = collect (run unit Demo.main (lit "lib") None None tt sched (start 2 fq)).
Proof.
  intros paths.
  split; [lia|].
  apply (C5_work_queue_filled Demo.main (lit "lib") None None tt paths 2).
  lia.
Defined.

Lemma C7_interrupted_worker_publishes_once_witness :
  let paths := [lit "a.pyc"; lit "stop.pyc"; lit "c.pyc"] in
  let fq := Queue.mk 5%Z [Some (lit "a.pyc"); Some (lit "stop.pyc");
                          Some (lit "c.pyc"); None; None] in
  let st := run unit Demo.main (lit "lib") None None tt [Get 0] (start 2 fq) in
  let acc := (1, 1, 0, 0)%Z in
  ((1 < 2)%Z
   ∧ fill paths 2 = Some fq
   ∧ procs st !! 0 = Some (Running acc)
   ∧ Queue.get (fqueue st)
     = Some (Some (lit "stop.pyc"), Queue.mk 5%Z [Some (lit "c.pyc"); None; None])
   ∧ Demo.main (lit "lib") None [lit "stop.pyc"] [] None tt = Raise KeyboardInterrupt)
  ∧ ∃ st',
      pstep unit Demo.main (lit "lib") None None tt (Get 0) st = Some st'
      ∧ procs st' = <[0:=Published acc]> (procs st)
      ∧ Queue.items (rqueue st') = Queue.items (rqueue st) ++ [acc]
      ∧ (Get 0 = Throw 0 KeyboardInterrupt → fqueue st' = fqueue st)
      ∧ ∀ later st'',
          st'' = run unit Demo.main (lit "lib") None None tt later st' →
          procs st'' !! 0 = Some (Published acc)
          ∧ (∀ ev', worker_of ev' = 0 →
               pstep unit Demo.main (lit "lib") None None tt ev' st'' = None)
          ∧ Queue.items (rqueue st'') ≡ₚ published (procs st'').
Proof.
  intros paths fq st acc.
  split; [split; [lia|]; split; [reflexivity|]; split; [reflexivity|];
          split; reflexivity|].
  apply (C7_interrupted_worker_publishes_once Demo.main (lit "lib") None None tt
           paths 2 fq [Get 0] st 0 acc (Get 0) KeyboardInterrupt).
  - lia.
  - reflexivity.
  - reflexivity.
  - reflexivity.
  - left. reflexivity.
  - right. split; [reflexivity|].
    exists (lit "stop.pyc"), (Queue.mk 5%Z [Some (lit "c.pyc"); None; None]).
    split; reflexivity.
Defined.

Lemma C8_no_files_is_a_usage_error_witness :
  let s := Demo.settings [] false 4 in
  input_paths unit Demo.isdir Demo.walk s = []
  ∧ main_bin unit Demo.main Demo.status_msg Demo.isdir Demo.walk Demo.kwargs s []
    = ([StderrWrite (lit "No files given
"); Print __doc__], Exit 1)
  ∧ (1 ≠ 0)%Z
  ∧ ∀ ev,
      ev ∈ (main_bin unit Demo.main Demo.status_msg Demo.isdir Demo.walk
              Demo.kwargs s []).1 →
      (∀ fs srcs, ev ≠ CallMain fs srcs) ∧ (∀ c, ev ≠ PrintSummary c).
Proof.
  intros s.
  split; [reflexivity|].
  apply (C8_no_files_is_a_usage_error Demo.main Demo.status_msg Demo.isdir
           Demo.walk Demo.kwargs s []).
  reflexivity.
Defined.

Lemma C9_serial_verify_error_propagates_witness :
  let s := Demo.settings [lit "lib/verify.pyc"; lit "lib/x.pyc"] false 1 in
  let rel := [lit "verify.pyc"; lit "x.pyc"] in
  (path_reduce (input_paths unit Demo.isdir Demo.walk s) = Some (lit "lib/", rel)
   ∧ rel ≠ []
   ∧ (numproc_opt s ≤ 1)%Z
   ∧ Demo.main (lit "lib/") (resolve_out Demo.isdir (outfile_opt s) rel).1 rel
       (source_paths s) (resolve_out Demo.isdir (outfile_opt s) rel).2
       (Demo.kwargs (asm_opt unit s) (show_ast unit s)) = Raise VerifyCmpError)
  ∧ (VerifyCmpError = VerifyCmpError →
     main_bin unit Demo.main Demo.status_msg Demo.isdir Demo.walk Demo.kwargs s []
     = (stamp s ++ [CallMain rel (source_paths s)], Exc VerifyCmpError))
  ∧ (VerifyCmpError = KeyboardInterrupt →
     main_bin unit Demo.main Demo.status_msg Demo.isdir Demo.walk Demo.kwargs s []
     = (stamp s ++ [CallMain rel (source_paths s)] ++ stamp s, Ok tt)).
Proof.
  intros s rel.
  split; [split; [reflexivity|]; split; [discriminate|];
          split; [simpl; lia|reflexivity]|].
  apply (C9_serial_verify_error_propagates Demo.main Demo.status_msg Demo.isdir
           Demo.walk Demo.kwargs s [] (lit "lib/") rel VerifyCmpError).
  - reflexivity.
  - discriminate.
  - simpl. lia.
  - reflexivity.
Defined.

Example serial_run_interrupted :
  main_bin unit Demo.main Demo.status_msg Demo.isdir Demo.walk Demo.kwargs
    (Demo.settings [lit "lib/stop.pyc"; lit "lib/x.pyc"] false 1) []
  = ([PrintTimestamp; CallMain [lit "stop.pyc"; lit "x.pyc"] []; PrintTimestamp],
     Ok tt).
Proof. by vm_compute. Qed.

Lemma C10_recurse_keeps_only_walked_files_witness :
  let s := Demo.settings [lit "lib"; lit "x.pyc"] true 1 in
  (recurse_dirs s = true
   ∧ files s = [lit "lib"] ++ lit "x.pyc" :: []
   ∧ Demo.isdir (lit "x.pyc") = false)
  ∧ input_paths unit Demo.isdir Demo.walk s
    = expanded_files Demo.isdir Demo.walk ([lit "lib"] ++ [])
  ∧ main_bin unit Demo.main Demo.status_msg Demo.isdir Demo.walk Demo.kwargs s []
    = main_bin unit Demo.main Demo.status_msg Demo.isdir Demo.walk Demo.kwargs
        (set_files s ([lit "lib"] ++ [])) []
  ∧ ∀ x, x ∈ input_paths unit Demo.isdir Demo.walk s ↔
         ∃ d root dirs dir_files df,
           d ∈ [lit "lib"] ++ [] ∧ Demo.isdir d = true
           ∧ (root, dirs, dir_files) ∈ Demo.walk d
           ∧ df ∈ dir_files
           ∧ (endswith df (lit ".pyc") || endswith df (lit ".pyo")) = true
           ∧ x = join root df.
Proof.
  intros s.
  split; [split; [reflexivity|]; split; reflexivity|].
  apply (C10_recurse_keeps_only_walked_files Demo.main Demo.status_msg Demo.isdir
           Demo.walk Demo.kwargs s [] [lit "lib"] [] (lit "x.pyc")).
  - reflexivity.
  - reflexivity.
  - reflexivity.
Defined.

(** * Further properties of the code *)

(** ** PathReducer *)

Lemma prefix_with_sep_cases (b : str) :
  prefix_with_sep b = b ∨ prefix_with_sep b = b ++ sep.
Proof.
  unfold prefix_with_sep, join. change (startswith [] sep) with false. cbv iota.
  destruct (negb (truthy b) || endswith b sep).
  - left. apply app_nil_r.
  - right. by rewrite app_nil_r.
Qed.

Lemma path_reduce_inv (pyc_paths rel : list str) (src_base : str) :
  path_reduce pyc_paths = Some (src_base, rel) →
  ∃ cp, commonprefix pyc_paths = Some cp ∧ src_base = base_of cp
        ∧ rel = if truthy src_base
                then map (slice_from (length (prefix_with_sep src_base))) pyc_paths
                else pyc_paths.
Proof.
  destruct (commonprefix_total pyc_paths) as [cp Hcp].
  rewrite (path_reduce_unfold _ _ Hcp). intros [= <- <-]. by exists cp.
Qed.

Lemma path_reduce_strips (pyc_paths rel : list str) (src_base : str) :
  path_reduce pyc_paths = Some (src_base, rel) →
  rel = map (slice_from (length (prefix_with_sep src_base))) pyc_paths.
Proof.
  intros H. apply path_reduce_inv in H as (cp & Hcp & -> & ->).
  destruct (base_of cp) as [|c b]; [|done].
  simpl. rewrite <- (map_id pyc_paths) at 1. by apply map_ext.
Qed.

(** X1: the prefix PathReducer returns is a prefix of every input path,
    and so is what is cut off: this prefix, or this prefix and one
    separator, ending with the separator whenever the prefix is not empty.
    Every relative path is its input path without exactly these leading
    characters, in the order of the input; with an empty prefix the paths
    are left as they are. *)
Theorem reduce_prefix_of_every_path (pyc_paths rel : list str) (src_base : str) :
  path_reduce pyc_paths = Some (src_base, rel) →
  (∀ f, f ∈ pyc_paths →
        src_base `prefix_of` f ∧ prefix_with_sep src_base `prefix_of` f)
  ∧ rel = map (slice_from (length (prefix_with_sep src_base))) pyc_paths
  ∧ (∀ i f, pyc_paths !! i = Some f →
            ∃ r, rel !! i = Some r ∧ f = prefix_with_sep src_base ++ r)
  ∧ (prefix_with_sep src_base = src_base
     ∨ prefix_with_sep src_base = src_base ++ sep)
  ∧ (src_base ≠ [] → endswith (prefix_with_sep src_base) sep = true)
  ∧ (src_base = [] → rel = pyc_paths).
Proof.
  intros H. pose proof (path_reduce_strips _ _ _ H) as Hrel.
  apply path_reduce_inv in H as (cp & Hcp & -> & Hif).
  assert (Hpre : ∀ f, f ∈ pyc_paths → prefix_with_sep (base_of cp) `prefix_of` f).
  { intros f Hf. etrans; [apply prefix_with_sep_base_of|].
    by eapply commonprefix_prefix. }
  split; [|split; [done|split; [|split; [apply prefix_with_sep_cases|split]]]].
  - intros f Hf. split; [|by apply Hpre].
    trans (prefix_with_sep (base_of cp)); [|by apply Hpre].
    destruct (prefix_with_sep_cases (base_of cp)) as [-> | ->];
      [done|by apply prefix_app_r].
  - intros i f Hi. rewrite Hrel.
    exists (slice_from (length (prefix_with_sep (base_of cp))) f). split.
    + change (map ?h ?l) with (h <$> l). rewrite list_lookup_fmap.
      unfold str in *. by rewrite Hi.
    + symmetry. apply rejoin_slice, Hpre. by eapply list_elem_of_lookup_2.
  - apply prefix_with_sep_ends.
  - intros Hb. rewrite Hif, Hb. done.
Qed.

Lemma reduce_prefix_of_every_path_witness :
  let paths := [lit "pkg/mod/a.pyc"; lit "pkg/mod/b.pyc"] in
  let rel := [lit "a.pyc"; lit "b.pyc"] in
  let src_base := lit "pkg/mod/" in
  path_reduce paths = Some (src_base, rel)
  ∧ (∀ f, f ∈ paths →
          src_base `prefix_of` f ∧ prefix_with_sep src_base `prefix_of` f)
  ∧ rel = map (slice_from (length (prefix_with_sep src_base))) paths
  ∧ (∀ i f, paths !! i = Some f →
            ∃ r, rel !! i = Some r ∧ f = prefix_with_sep src_base ++ r)
  ∧ (prefix_with_sep src_base = src_base
     ∨ prefix_with_sep src_base = src_base ++ sep)
  ∧ (src_base ≠ [] → endswith (prefix_with_sep src_base) sep = true)
  ∧ (src_base = [] → rel = paths).
Proof.
  intros paths rel src_base.
  split; [reflexivity|].
  apply (reduce_prefix_of_every_path paths rel src_base).
  reflexivity.
Defined.

Lemma rfind_succ_no_sep (p : str) :
  Forall (fun c => c ≠ sep_char) p → rfind_succ p = 0.
Proof.
  induction 1 as [|c p Hc _ IH]; [done|]. simpl. rewrite IH.
  unfold is_sep. by rewrite bool_decide_eq_false_2.
Qed.

Lemma base_of_no_sep (cp : str) :
  Forall (fun c => c ≠ sep_char) cp → base_of cp = [].
Proof.
  intros H. unfold base_of.
  assert (Hd : dirname cp = []).
  { unfold dirname. by rewrite (rfind_succ_no_sep _ H). }
  case_bool_decide as Hl; [done|].
  destruct cp as [|c l _] using rev_ind; [done|].
  rewrite slice_last_snoc in Hl. injection Hl as ->.
  apply Forall_app in H as [_ H]. by inversion H.
Qed.

(** X2: when one of the input paths has no directory part (no separator
    in it), nothing is stripped: the prefix is empty and the paths are
    passed on unchanged. *)
Theorem reduce_keeps_bare_file_names (pyc_paths : list str) (f : str) :
  f ∈ pyc_paths →
  Forall (fun c => c ≠ sep_char) f →
  path_reduce pyc_paths = Some ([], pyc_paths).
Proof.
  intros Hf Hno.
  destruct (commonprefix_total pyc_paths) as [cp Hcp].
  rewrite (path_reduce_unfold _ _ Hcp).
  pose proof (commonprefix_prefix _ _ _ Hcp Hf) as [k ->].
  apply Forall_app in Hno as [Hno _].
  by rewrite (base_of_no_sep _ Hno).
Qed.

Lemma reduce_keeps_bare_file_names_witness :
  (lit "b.pyc" ∈ [lit "dir/a.pyc"; lit "b.pyc"]
   ∧ Forall (fun c => c ≠ sep_char) (lit "b.pyc"))
  ∧ path_reduce [lit "dir/a.pyc"; lit "b.pyc"]
    = Some ([], [lit "dir/a.pyc"; lit "b.pyc"]).
Proof.
  assert (H1 : lit "b.pyc" ∈ [lit "dir/a.pyc"; lit "b.pyc"]).
  { apply elem_of_cons. right. apply elem_of_cons. left. reflexivity. }
  assert (H2 : Forall (fun c => c ≠ sep_char) (lit "b.pyc")).
  { repeat constructor; discriminate. }
  split; [by split|].
  exact (reduce_keeps_bare_file_names [lit "dir/a.pyc"; lit "b.pyc"] (lit "b.pyc")
           H1 H2).
Defined.

(** X4: paths that differ still differ after the prefix is stripped: when
    no input path occurs twice, no relative path occurs twice. *)
Theorem reduce_keeps_paths_apart (pyc_paths rel : list str) (src_base : str) :
  path_reduce pyc_paths = Some (src_base, rel) →
  NoDup pyc_paths → NoDup rel.
Proof.
  intros H Hnd.
  destruct (path_reduce_rejoin pyc_paths) as (b & rel' & Hr & Hm).
  rewrite H in Hr. injection Hr as <- <-.
  rewrite <- Hm in Hnd. by apply NoDup_fmap_1 in Hnd.
Qed.

Lemma reduce_keeps_paths_apart_witness :
  (path_reduce [lit "x/a/m.pyc"; lit "x/b/m.pyc"]
   = Some (lit "x/", [lit "a/m.pyc"; lit "b/m.pyc"])
   ∧ NoDup [lit "x/a/m.pyc"; lit "x/b/m.pyc"])
  ∧ NoDup [lit "a/m.pyc"; lit "b/m.pyc"].
Proof.
  assert (Hnd : NoDup [lit "x/a/m.pyc"; lit "x/b/m.pyc"]).
  { apply NoDup_cons. split.
    - intros H. apply list_elem_of_singleton in H. discriminate H.
    - apply NoDup_singleton. }
  split; [split; [reflexivity|exact Hnd]|].
  exact (reduce_keeps_paths_apart [lit "x/a/m.pyc"; lit "x/b/m.pyc"]
           [lit "a/m.pyc"; lit "b/m.pyc"] (lit "x/") eq_refl Hnd).
Defined.

Lemma str_le_antisym (a b : str) :
  str_le a b = true → str_le b a = true → a = b.
Proof.
  revert b. induction a as [|x a IH]; intros [|y b] H1 H2; try done.
  rewrite str_le_cons in H1, H2.
  destruct (N.ltb_spec (ord y) (ord x)); [done|].
  destruct (N.ltb_spec (ord x) (ord y)); [done|].
  assert (x = y) as -> by (apply ord_inj; lia).
  f_equal. by apply IH.
Qed.

Lemma fold_min_in (r : list str) (x : str) :
  fold_left (fun best y => if str_lt y best then y else best) r x ∈ x :: r.
Proof.
  revert x. induction r as [|y r IH]; intros x; simpl.
  - apply elem_of_cons. by left.
  - specialize (IH (if str_lt y x then y else x)).
    apply elem_of_cons in IH as [->|IH].
    + destruct (str_lt y x); [|apply elem_of_cons; by left].
      apply elem_of_cons. right. apply elem_of_cons. by left.
    + apply elem_of_cons. right. apply elem_of_cons. by right.
Qed.

Lemma fold_max_in (r : list str) (x : str) :
  fold_left (fun best y => if str_lt best y then y else best) r x ∈ x :: r.
Proof.
  revert x. induction r as [|y r IH]; intros x; simpl.
  - apply elem_of_cons. by left.
  - specialize (IH (if str_lt x y then y else x)).
    apply elem_of_cons in IH as [->|IH].
    + destruct (str_lt x y); [|apply elem_of_cons; by left].
      apply elem_of_cons. right. apply elem_of_cons. by left.
    + apply elem_of_cons. right. apply elem_of_cons. by right.
Qed.

Lemma py_min_perm (m m' : list str) : m ≡ₚ m' → py_min m = py_min m'.
Proof.
  intros Hp.
  destruct m as [|x r].
  { apply Permutation_nil_l in Hp. by subst. }
  destruct m' as [|x' r'].
  { by apply Permutation_nil_r in Hp. }
  destruct (py_min (x :: r)) as [a|] eqn:Ha; [|done].
  destruct (py_min (x' :: r')) as [a'|] eqn:Ha'; [|done].
  f_equal. apply str_le_antisym.
  - eapply py_min_le; [done|]. rewrite Hp.
    injection Ha' as <-. apply fold_min_in.
  - eapply py_min_le; [done|]. rewrite <- Hp.
    injection Ha as <-. apply fold_min_in.
Qed.

Lemma py_max_perm (m m' : list str) : m ≡ₚ m' → py_max m = py_max m'.
Proof.
  intros Hp.
  destruct m as [|x r].
  { apply Permutation_nil_l in Hp. by subst. }
  destruct m' as [|x' r'].
  { by apply Permutation_nil_r in Hp. }
  destruct (py_max (x :: r)) as [a|] eqn:Ha; [|done].
  destruct (py_max (x' :: r')) as [a'|] eqn:Ha'; [|done].
  f_equal. apply str_le_antisym.
  - eapply py_max_le; [done|]. rewrite <- Hp.
    injection Ha as <-. apply fold_max_in.
  - eapply py_max_le; [done|]. rewrite Hp.
    injection Ha' as <-. apply fold_max_in.
Qed.

(** X3: the prefix does not depend on the order in which the paths are
    given: the same paths in another order get the same prefix, and each
    path gets the same relative path at the place where it now stands,
    both results being the input list with the same number of leading
    characters taken from every path. *)
Theorem reduce_order_of_paths (pyc_paths pyc_paths' : list str) :
  pyc_paths ≡ₚ pyc_paths' →
  ∃ src_base,
    path_reduce pyc_paths
    = Some (src_base,
            map (slice_from (length (prefix_with_sep src_base))) pyc_paths)
    ∧ path_reduce pyc_paths'
      = Some (src_base,
              map (slice_from (length (prefix_with_sep src_base))) pyc_paths').
Proof.
  intros Hp.
  destruct (commonprefix_total pyc_paths) as [cp Hcp].
  assert (Hcp' : commonprefix pyc_paths' = Some cp).
  { rewrite <- Hcp. unfold commonprefix.
    by rewrite (py_min_perm _ _ Hp), (py_max_perm _ _ Hp). }
  destruct (path_reduce_rejoin pyc_paths) as (b & rel & Hr & _).
  destruct (path_reduce_rejoin pyc_paths') as (b' & rel' & Hr' & _).
  assert (b = base_of cp) as ->.
  { rewrite (path_reduce_unfold _ _ Hcp) in Hr. by injection Hr as <- _. }
  assert (b' = base_of cp) as ->.
  { rewrite (path_reduce_unfold _ _ Hcp') in Hr'. by injection Hr' as <- _. }
  exists (base_of cp).
  rewrite <- (path_reduce_strips _ _ _ Hr), <- (path_reduce_strips _ _ _ Hr').
  done.
Qed.

Lemma reduce_order_of_paths_witness :
  let paths := [lit "p/b/x.pyc"; lit "p/a/y.pyc"; lit "p/c.pyc"] in
  let paths' := [lit "p/c.pyc"; lit "p/b/x.pyc"; lit "p/a/y.pyc"] in
  paths ≡ₚ paths'
  ∧ ∃ src_base,
      path_reduce paths
      = Some (src_base, map (slice_from (length (prefix_with_sep src_base))) paths)
      ∧ path_reduce paths'
        = Some (src_base,
                map (slice_from (length (prefix_with_sep src_base))) paths').
Proof.
  intros paths paths'.
  assert (Hp : paths ≡ₚ paths').
  { symmetry.
    apply (Permutation_cons_append [lit "p/b/x.pyc"; lit "p/a/y.pyc"] (lit "p/c.pyc")). }
  split; [exact Hp|].
  exact (reduce_order_of_paths paths paths' Hp).
Defined.

Example reduce_in_another_order :
  path_reduce [lit "p/b/x.pyc"; lit "p/a/y.pyc"; lit "p/c.pyc"]
  = Some (lit "p/", [lit "b/x.pyc"; lit "a/y.pyc"; lit "c.pyc"])
  ∧ path_reduce [lit "p/c.pyc"; lit "p/b/x.pyc"; lit "p/a/y.pyc"]
    = Some (lit "p/", [lit "c.pyc"; lit "b/x.pyc"; lit "a/y.pyc"]).
Proof. by vm_compute. Qed.

(** ** Expansion of directories *)

Lemma startswith_app (s k t : str) :
  startswith s t = true → startswith (s ++ k) t = true.
Proof.
  revert s. induction t as [|y t IH]; intros s; [done|].
  destruct s as [|x s]; [done|]. simpl.
  destruct (decide (x = y)); [apply IH|done].
Qed.

Lemma endswith_app (a b t : str) :
  endswith b t = true → endswith (a ++ b) t = true.
Proof. unfold endswith. rewrite rev_app_distr. apply startswith_app. Qed.

Lemma endswith_join (root df t : str) :
  endswith df t = true → endswith (join root df) t = true.
Proof.
  intros H. unfold join.
  destruct (startswith df sep); [done|].
  destruct (negb (truthy root) || endswith root sep).
  - by apply endswith_app.
  - rewrite app_assoc. by apply endswith_app.
Qed.

(** X5: every path that the expansion under [-r] produces ends in ".pyc"
    or ".pyo", whatever the directories it was found in are called. *)
Theorem expanded_files_are_compiled_files
    (isdir : str → bool) (walk : str → list (str * list str * list str))
    (pyc_paths : list str) :
  Forall (fun x => endswith x (lit ".pyc") || endswith x (lit ".pyo") = true)
    (expanded_files isdir walk pyc_paths).
Proof.
  apply Forall_forall. intros x Hx.
  unfold expanded_files, expand_dir in Hx.
  apply list_elem_of_In, in_flat_map in Hx as (d & _ & Hx).
  destruct (isdir d); [|done].
  apply in_flat_map in Hx as ([[root dirs] dir_files] & _ & Hx).
  apply in_map_iff in Hx as (df & <- & Hdf).
  apply filter_In in Hdf as [_ Hw]. unfold wanted in Hw.
  apply orb_true_iff in Hw as [Hw|Hw]; apply orb_true_iff.
  - left. by apply endswith_join.
  - right. by apply endswith_join.
Qed.

Section MoreMainBinFacts.

Context {Opts : Type}.
Context (main :
  str → option str → list str → list str → option str → Opts → outcome Counters).
Context (status_msg : Counters → str).
Context (isdir : str → bool) (walk : str → list (str * list str * list str)).
Context (kwargs : option str → bool * bool → Opts).

Lemma main_bin_no_input (s : Settings Opts) (sched : list pevent) :
  input_paths Opts isdir walk s = [] →
  main_bin Opts main status_msg isdir walk kwargs s sched
  = ([StderrWrite (lit "No files given
"); Print __doc__], Exit 1).
Proof. intros H. unfold main_bin. rewrite H. reflexivity. Qed.

Lemma main_bin_parallel (s : Settings Opts) (sched : list pevent)
    (src_base : str) (rel : list str) :
  path_reduce (input_paths Opts isdir walk s) = Some (src_base, rel) →
  rel ≠ [] → (1 < numproc_opt s)%Z →
  main_bin Opts main status_msg isdir walk kwargs s sched
  = (when (timestamp s) (emit PrintTimestamp) ;;;
     parallel_dispatch Opts main src_base
       (resolve_out isdir (outfile_opt s) rel).1
       (resolve_out isdir (outfile_opt s) rel).2
       (options s) rel (numproc_opt s) sched ;;;
     when (timestamp s) (emit PrintTimestamp)).
Proof.
  intros Hr Hne Hn. unfold main_bin. rewrite Hr.
  destruct rel as [|f rel]; [done|]. cbn [truthy negb when].
  destruct (resolve_out isdir (outfile_opt s) (f :: rel)) as [ob outf].
  assert ((numproc_opt s <=? 1)%Z = false) as -> by lia.
  cbn [fst snd].
  unfold m_bind at 1. unfold m_ret. cbn [app].
  by destruct (_ ;;; _).
Qed.

End MoreMainBinFacts.

(** X6: under [-r], when none of the arguments is a directory, the run
    ends as if no file had been given: "No files given" on standard
    error, the usage text, exit status 1, although files were named. *)
Theorem recurse_without_directory_is_usage_error {Opts : Type}
    (main : str → option str → list str → list str → option str → Opts
            → outcome Counters)
    (status_msg : Counters → str)
    (isdir : str → bool) (walk : str → list (str * list str * list str))
    (kwargs : option str → bool * bool → Opts)
    (s : Settings Opts) (sched : list pevent) :
  recurse_dirs s = true →
  Forall (fun f => isdir f = false) (files s) →
  main_bin Opts main status_msg isdir walk kwargs s sched
  = ([StderrWrite (lit "No files given
"); Print __doc__], Exit 1).
Proof.
  intros Hrec Hnd. apply main_bin_no_input.
  unfold input_paths, expanded_files. rewrite Hrec.
  induction Hnd as [|f fs Hf _ IH]; [done|]. simpl. by rewrite Hf.
Qed.

Lemma recurse_without_directory_is_usage_error_witness :
  let s := Demo.settings [lit "x.pyc"; lit "y.pyo"] true 1 in
  (recurse_dirs s = true ∧ Forall (fun f => Demo.isdir f = false) (files s))
  ∧ main_bin unit Demo.main Demo.status_msg Demo.isdir Demo.walk Demo.kwargs s []
    = ([StderrWrite (lit "No files given
"); Print __doc__], Exit 1).
Proof.
  intros s.
  assert (Hnd : Forall (fun f => Demo.isdir f = false) (files s)).
  { repeat constructor. }
  split; [split; [reflexivity|exact Hnd]|].
  exact (recurse_without_directory_is_usage_error Demo.main Demo.status_msg
           Demo.isdir Demo.walk Demo.kwargs s [] eq_refl Hnd).
Defined.

(** ** Serial mode *)

(** X7: in serial mode, when [main] returns, the status line is printed
    only if there is more than one path; with a single path the run
    prints nothing of its own but the timestamps asked for. *)
Theorem serial_status_line_only_for_several_paths {Opts : Type}
    (main : str → option str → list str → list str → option str → Opts
            → outcome Counters)
    (status_msg : Counters → str)
    (isdir : str → bool) (walk : str → list (str * list str * list str))
    (kwargs : option str → bool * bool → Opts)
    (s : Settings Opts) (sched : list pevent)
    (src_base : str) (rel : list str) (c : Counters) :
  path_reduce (input_paths Opts isdir walk s) = Some (src_base, rel) →
  rel ≠ [] →
  (numproc_opt s ≤ 1)%Z →
  main src_base (resolve_out isdir (outfile_opt s) rel).1 rel (source_paths s)
    (resolve_out isdir (outfile_opt s) rel).2
    (kwargs (asm_opt Opts s) (show_ast Opts s)) = Ret c →
  main_bin Opts main status_msg isdir walk kwargs s sched
  = (stamp s ++ [CallMain rel (source_paths s)]
     ++ (if 1 <? length rel then [Print (lit "# " ++ status_msg c)] else [])
     ++ stamp s, Ok tt).
Proof.
  intros Hr Hne Hn Hm.
  rewrite (main_bin_serial _ _ _ _ _ _ _ _ _ Hr Hne Hn).
  unfold serial_dispatch, call_main, stamp. rewrite Hm.
  by destruct (timestamp s), (1 <? length rel).
Qed.

Lemma serial_status_line_only_for_several_paths_witness :
  let s := Demo.settings [lit "lib/a.pyc"] false 1 in
  (path_reduce (input_paths unit Demo.isdir Demo.walk s)
   = Some (lit "lib", [lit "a.pyc"])
   ∧ [lit "a.pyc"] ≠ []
   ∧ (numproc_opt s ≤ 1)%Z
   ∧ Demo.main (lit "lib") (resolve_out Demo.isdir (outfile_opt s) [lit "a.pyc"]).1
       [lit "a.pyc"] (source_paths s)
       (resolve_out Demo.isdir (outfile_opt s) [lit "a.pyc"]).2
       (Demo.kwargs (asm_opt unit s) (show_ast unit s)) = Ret (1, 1, 0, 0)%Z)
  ∧ main_bin unit Demo.main Demo.status_msg Demo.isdir Demo.walk Demo.kwargs s []
    = (stamp s ++ [CallMain [lit "a.pyc"] (source_paths s)]
       ++ (if 1 <? length [lit "a.pyc"]
           then [Print (lit "# " ++ Demo.status_msg (1, 1, 0, 0)%Z)] else [])
       ++ stamp s, Ok tt).
Proof.
  intros s.
  split; [split; [reflexivity|]; split; [discriminate|];
          split; [simpl; lia|reflexivity]|].
  apply (serial_status_line_only_for_several_paths Demo.main Demo.status_msg
           Demo.isdir Demo.walk Demo.kwargs s [] (lit "lib") [lit "a.pyc"]
           (1, 1, 0, 0)%Z).
  - reflexivity.
  - discriminate.
  - simpl. lia.
  - reflexivity.
Defined.

(** X8: in serial mode an [ImportError] out of [main] is answered by
    printing its message and leaving with exit status 2; no status line
    and no closing timestamp follow. *)
Theorem serial_import_error_exits_2 {Opts : Type}
    (main : str → option str → list str → list str → option str → Opts
            → outcome Counters)
    (status_msg : Counters → str)
    (isdir : str → bool) (walk : str → list (str * list str * list str))
    (kwargs : option str → bool * bool → Opts)
    (s : Settings Opts) (sched : list pevent)
    (src_base : str) (rel : list str) (msg : str) :
  path_reduce (input_paths Opts isdir walk s) = Some (src_base, rel) →
  rel ≠ [] →
  (numproc_opt s ≤ 1)%Z →
  main src_base (resolve_out isdir (outfile_opt s) rel).1 rel (source_paths s)
    (resolve_out isdir (outfile_opt s) rel).2
    (kwargs (asm_opt Opts s) (show_ast Opts s)) = Raise (ImportError msg) →
  main_bin Opts main status_msg isdir walk kwargs s sched
  = (stamp s ++ [CallMain rel (source_paths s); Print msg], Exit 2).
Proof.
  intros Hr Hne Hn Hm.
  rewrite (main_bin_serial _ _ _ _ _ _ _ _ _ Hr Hne Hn).
  unfold serial_dispatch, call_main, stamp. rewrite Hm.
  by destruct (timestamp s).
Qed.

(** X9: in serial mode every exception out of [main] other than
    [ImportError] and [KeyboardInterrupt] leaves [main_bin] as it is: the
    clause for [VerifyCmpError] makes no exception a special case. *)
Theorem serial_other_exceptions_escape {Opts : Type}
    (main : str → option str → list str → list str → option str → Opts
            → outcome Counters)
    (status_msg : Counters → str)
    (isdir : str → bool) (walk : str → list (str * list str * list str))
    (kwargs : option str → bool * bool → Opts)
    (s : Settings Opts) (sched : list pevent)
    (src_base : str) (rel : list str) (e : exn) :
  path_reduce (input_paths Opts isdir walk s) = Some (src_base, rel) →
  rel ≠ [] →
  (numproc_opt s ≤ 1)%Z →
  main src_base (resolve_out isdir (outfile_opt s) rel).1 rel (source_paths s)
    (resolve_out isdir (outfile_opt s) rel).2
    (kwargs (asm_opt Opts s) (show_ast Opts s)) = Raise e →
  (∀ msg, e ≠ ImportError msg) →
  e ≠ KeyboardInterrupt →
  main_bin Opts main status_msg isdir walk kwargs s sched
  = (stamp s ++ [CallMain rel (source_paths s)], Exc e).
Proof.
  intros Hr Hne Hn Hm Himp Hki.
  rewrite (main_bin_serial _ _ _ _ _ _ _ _ _ Hr Hne Hn).
  unfold serial_dispatch, call_main, stamp. rewrite Hm.
  destruct e; try done; try (by destruct (timestamp s)).
  by destruct (Himp msg).
Qed.

Lemma serial_import_error_exits_2_witness :
  let s := Demo.settings [lit "lib/a.pyc"; lit "lib/b.pyc"] false 0 in
  let rel := [lit "a.pyc"; lit "b.pyc"] in
  (path_reduce (input_paths unit Demo.isdir Demo.walk s) = Some (lit "lib/", rel)
   ∧ rel ≠ []
   ∧ (numproc_opt s ≤ 1)%Z
   ∧ Demo.main_unimportable (lit "lib/")
       (resolve_out Demo.isdir (outfile_opt s) rel).1 rel (source_paths s)
       (resolve_out Demo.isdir (outfile_opt s) rel).2
       (Demo.kwargs (asm_opt unit s) (show_ast unit s))
     = Raise (ImportError (lit "No module named xdis")))
  ∧ main_bin unit Demo.main_unimportable Demo.status_msg Demo.isdir Demo.walk
      Demo.kwargs s []
    = (stamp s ++ [CallMain rel (source_paths s);
                   Print (lit "No module named xdis")], Exit 2).
Proof.
  intros s rel.
  split; [split; [reflexivity|]; split; [discriminate|];
          split; [simpl; lia|reflexivity]|].
  apply (serial_import_error_exits_2 Demo.main_unimportable Demo.status_msg
           Demo.isdir Demo.walk Demo.kwargs s [] (lit "lib/") rel
           (lit "No module named xdis")).
  - reflexivity.
  - discriminate.
  - simpl. lia.
  - reflexivity.
Defined.

Lemma serial_other_exceptions_escape_witness :
  let s := Demo.settings [lit "lib/crash.pyc"; lit "lib/b.pyc"] false 1 in
  let rel := [lit "crash.pyc"; lit "b.pyc"] in
  (path_reduce (input_paths unit Demo.isdir Demo.walk s) = Some (lit "lib/", rel)
   ∧ rel ≠ []
   ∧ (numproc_opt s ≤ 1)%Z
   ∧ Demo.main (lit "lib/") (resolve_out Demo.isdir (outfile_opt s) rel).1 rel
       (source_paths s) (resolve_out Demo.isdir (outfile_opt s) rel).2
       (Demo.kwargs (asm_opt unit s) (show_ast unit s)) = Raise OtherError
   ∧ (∀ msg, OtherError ≠ ImportError msg)
   ∧ OtherError ≠ KeyboardInterrupt)
  ∧ main_bin unit Demo.main Demo.status_msg Demo.isdir Demo.walk Demo.kwargs s []
    = (stamp s ++ [CallMain rel (source_paths s)], Exc OtherError).
Proof.
  intros s rel.
  split; [split; [reflexivity|]; split; [discriminate|];
          split; [simpl; lia|]; split; [reflexivity|];
          split; [intros msg; discriminate|discriminate]|].
  apply (serial_other_exceptions_escape Demo.main Demo.status_msg
           Demo.isdir Demo.walk Demo.kwargs s [] (lit "lib/") rel OtherError).
  - reflexivity.
  - discriminate.
  - simpl. lia.
  - reflexivity.
  - intros msg. discriminate.
  - discriminate.
Defined.

(** ** Parallel mode *)

Lemma work_queue_unique (r1 r2 : list str) (k1 k2 : nat) :
  map Some r1 ++ replicate k1 None = map Some r2 ++ replicate k2 None →
  r1 = r2.
Proof.
  revert r2. induction r1 as [|f r1 IH]; intros [|f2 r2]; simpl.
  - done.
  - destruct k1; done.
  - destruct k2; done.
  - intros [= <- H]. f_equal. by apply IH.
Qed.

Section MoreParallelFacts.

Context {Opts : Type}.
Context (main :
  str → option str → list str → list str → option str → Opts → outcome Counters).
Context (src_base : str) (out_base outfile : option str) (options : Opts).

Local Abbreviation step := (pstep Opts main src_base out_base outfile options).
Local Abbreviation move := (pmove Opts main src_base out_base outfile options).
Local Abbreviation exec := (run Opts main src_base out_base outfile options).
Local Abbreviation called :=
  (calls Opts main src_base out_base outfile options).
Local Abbreviation count :=
  (happened Opts main src_base out_base outfile options).

Lemma takes_length (st st' : pstate) (taken : option (option str)) :
  takes st st' taken →
  length (Queue.items (fqueue st')) ≤ length (Queue.items (fqueue st))
  ∧ (is_Some taken →
     S (length (Queue.items (fqueue st'))) = length (Queue.items (fqueue st))).
Proof.
  destruct taken as [item|]; simpl.
  - intros [-> _]%queue_get_inv. simpl. split; [lia|done].
  - intros ->. split; [done|]. by intros [? ?].
Qed.

(** Every event that happens takes an item from [fqueue] or ends a
    worker. *)
Lemma pmove_measure (st st' : pstate) :
  move st st' →
  length (Queue.items (fqueue st')) + running (procs st')
  < length (Queue.items (fqueue st)) + running (procs st).
Proof.
  intros [i acc c f Hi Ht Hm Hr Hp
         |i acc taken Hi Ht Hput Hp
         |i acc taken Hi Hne Ht Hr Hp].
  - destruct (insert_running _ _ _ (cadd acc c) Hi) as (Hrun & _).
    destruct (takes_length _ _ _ Ht) as [_ Hlen].
    rewrite Hp, Hrun. specialize (Hlen (mk_is_Some _ _ eq_refl)). lia.
  - destruct (insert_published _ _ _ Hi) as (Hrun & _).
    destruct (takes_length _ _ _ Ht) as [Hlen _].
    rewrite Hp. lia.
  - destruct (insert_crashed _ _ _ Hi) as (Hrun & _).
    destruct (takes_length _ _ _ Ht) as [Hlen _].
    rewrite Hp. lia.
Qed.

Lemma happened_bound (sched : list pevent) (st : pstate) :
  count sched st ≤ length (Queue.items (fqueue st)) + running (procs st).
Proof.
  revert st. induction sched as [|ev sched IH]; intros st; simpl; [lia|].
  destruct (step ev st) as [st'|] eqn:E; [|apply IH].
  apply pstep_pmove, pmove_measure in E. specialize (IH st'). lia.
Qed.

(** What an event that happens takes from [fqueue]: the path it calls
    [main] with, a sentinel, or nothing. *)
Lemma pstep_call (ev : pevent) (st st' : pstate) :
  step ev st = Some st' →
  match call_of ev st with
  | Some (i, f) => Queue.get (fqueue st) = Some (Some f, fqueue st')
  | None =>
      fqueue st' = fqueue st ∨ Queue.get (fqueue st) = Some (None, fqueue st')
  end.
Proof.
  unfold pstep, call_of. destruct ev as [i|i e];
    destruct (procs st !! i) as [[acc| |]|] eqn:Hi; try done.
  - destruct (Queue.get (fqueue st)) as [[[f|] fq]|] eqn:Hg; try done.
    + destruct (main _ _ _ _ _ _) as [c|e].
      * by intros [= <-].
      * unfold handle, publish.
        by destruct e; try destruct (Queue.put _ _); intros [= <-].
    + unfold publish. destruct (Queue.put _ _); intros [= <-]. by right.
  - unfold handle, publish.
    destruct e; try destruct (Queue.put _ _); intros [= <-]; by left.
Qed.

Lemma calls_rest (sched : list pevent) (st : pstate) (rest : list str) (k : nat) :
  Queue.items (fqueue st) = map Some rest ++ replicate k None →
  ∃ rest' k',
    Queue.items (fqueue (exec sched st)) = map Some rest' ++ replicate k' None
    ∧ map snd (called sched st) ++ rest' = rest.
Proof.
  revert st rest k. induction sched as [|ev sched IH]; intros st rest k Hq.
  { by exists rest, k. }
  rewrite exec_cons. simpl.
  destruct (step ev st) as [st'|] eqn:E; simpl; [|by eapply IH].
  apply pstep_call in E.
  destruct (call_of ev st) as [[i f]|].
  - apply queue_get_inv in E as [E _]. rewrite E in Hq. symmetry in Hq.
    apply work_queue_head in Hq as [(f' & rest1 & [= <-] & -> & Hq)|(? & _)];
      [|done].
    destruct (IH _ _ _ Hq) as (rest' & k' & Hq' & Hc).
    exists rest', k'. split; [done|]. simpl. by rewrite Hc.
  - destruct E as [E|E].
    + rewrite <- E in Hq. destruct (IH _ _ _ Hq) as (rest' & k' & Hq' & Hc).
      by exists rest', k'.
    + apply queue_get_inv in E as [E _]. rewrite E in Hq. symmetry in Hq.
      apply work_queue_head in Hq as [(f' & _ & ? & _)|(_ & -> & k1 & -> & Hq)];
        [done|].
      destruct (IH st' [] k1 Hq) as (rest' & k' & Hq' & Hc).
      by exists rest', k'.
Qed.

End MoreParallelFacts.

(** X10: whatever the schedule, interrupts and crashes, the paths the
    workers call [main] with are the first paths of the list, in the order
    of the list and none of them twice, and the paths not yet handed out
    are still on the work queue in front of the sentinels: no path is lost
    and none is handed to two workers. *)
Theorem parallel_paths_handed_out_in_order {Opts : Type}
    (main : str → option str → list str → list str → option str → Opts
            → outcome Counters)
    (src_base : str) (out_base outfile : option str) (options : Opts)
    (pyc_paths : list str) (numproc : Z) (sched : list pevent) :
  (1 < numproc)%Z →
  ∃ fq rest k,
    fill pyc_paths numproc = Some fq
    ∧ Queue.items
        (fqueue (run Opts main src_base out_base outfile options sched
                   (start numproc fq)))
      = map Some rest ++ replicate k None
    ∧ map snd (calls Opts main src_base out_base outfile options sched
                 (start numproc fq)) ++ rest
      = pyc_paths.
Proof.
  intros Hn.
  assert (H0 : (0 ≤ numproc)%Z) by lia.
  pose proof (fill_spec pyc_paths numproc H0) as Hfill.
  set (fq := Queue.mk _ _) in *.
  destruct (calls_rest main src_base out_base outfile options sched
              (start numproc fq) pyc_paths (Z.to_nat numproc) eq_refl)
    as (rest & k & Hq & Hc).
  by exists fq, rest, k.
Qed.

Lemma parallel_paths_handed_out_in_order_witness :
  let paths := [lit "a.pyc"; lit "crash.pyc"; lit "c.pyc"; lit "d.pyc"] in
  let sched := [Get 1; Get 0; Throw 1 KeyboardInterrupt] in
  (1 < 2)%Z
  ∧ ∃ fq rest k,
      fill paths 2 = Some fq
      ∧ Queue.items
          (fqueue (run unit Demo.main (lit "lib") None None tt sched (start 2 fq)))
        = map Some rest ++ replicate k None
      ∧ map snd (calls unit Demo.main (lit "lib") None None tt sched (start 2 fq))
        ++ rest
        = paths.
Proof.
  intros paths sched.
  split; [lia|].
  apply (parallel_paths_handed_out_in_order Demo.main (lit "lib") None None tt
           paths 2 sched).
  lia.
Defined.

(** X11: when [main] returns for every path and no worker is interrupted,
    then once all workers have ended, [main] has been called with every
    path exactly as often as it is in the list, in the order of the list. *)
Theorem parallel_every_path_processed {Opts : Type}
    (main : str → option str → list str → list str → option str → Opts
            → outcome Counters)
    (src_base : str) (out_base outfile : option str) (options : Opts)
    (g : str → Counters)
    (pyc_paths : list str) (numproc : Z) (fq : Queue.t (option str))
    (sched : list pevent) :
  (1 < numproc)%Z →
  (∀ f, main src_base out_base [f] [] outfile options = Ret (g f)) →
  fill pyc_paths numproc = Some fq →
  forallb is_get sched = true →
  forallb exited
    (procs (run Opts main src_base out_base outfile options sched
              (start numproc fq))) = true →
  map snd (calls Opts main src_base out_base outfile options sched
             (start numproc fq))
  = pyc_paths.
Proof.
  intros Hn Hmain Hfill Hg Hex.
  assert (H0 : (0 ≤ numproc)%Z) by lia.
  pose proof (start_inv _ _ _ H0 Hfill) as Hstart.
  pose proof (start_inv_work g _ _ _ H0 Hfill) as Hwork.
  apply (exec_inv main src_base out_base outfile options _ sched) in Hstart
    as (Hlen & _).
  apply (exec_inv_work main src_base out_base outfile options g Hmain _ sched)
    in Hwork as (rest_w & Hqw & Hrest & _); [|done].
  apply running_zero_exited in Hex.
  rewrite Hrest in Hqw by lia.
  assert (Hq0 : Queue.items (fqueue (start numproc fq))
                = map Some pyc_paths ++ replicate (Z.to_nat numproc) None).
  { rewrite fill_spec in Hfill by done. by injection Hfill as <-. }
  destruct (calls_rest main src_base out_base outfile options sched _ _ _ Hq0)
    as (rest & k & Hq & Hc).
  rewrite Hqw in Hq. apply work_queue_unique in Hq as <-.
  by rewrite app_nil_r in Hc.
Qed.

Lemma parallel_every_path_processed_witness :
  let paths := [lit "a.pyc"; lit "b.pyc"; lit "c.pyc"] in
  let fq := Queue.mk 5%Z [Some (lit "a.pyc"); Some (lit "b.pyc");
                          Some (lit "c.pyc"); None; None] in
  let sched := [Get 1; Get 0; Get 1; Get 1; Get 0] in
  let g := fun _ : str => (1, 1, 0, 0)%Z in
  ((1 < 2)%Z
   ∧ fill paths 2 = Some fq
   ∧ forallb is_get sched = true
   ∧ forallb exited
       (procs (run unit Demo.main_ok
                 (lit "lib") None None tt sched (start 2 fq))) = true)
  ∧ map snd (calls unit Demo.main_ok
               (lit "lib") None None tt sched (start 2 fq))
    = paths.
Proof.
  intros paths fq sched g.
  split; [split; [lia|]; split; [reflexivity|]; split; reflexivity|].
  apply (parallel_every_path_processed
           Demo.main_ok
           (lit "lib") None None tt g paths 2 fq sched).
  - lia.
  - intros f. reflexivity.
  - reflexivity.
  - reflexivity.
  - reflexivity.
Defined.

(** X12: no worker ever blocks: in every state a parallel run can reach,
    a worker that is in its loop finds an item on the work queue and, when
    it has to publish, room on the result queue, so that its turn can
    happen; the result queue never holds more tuples than there are
    workers. *)
Theorem parallel_worker_never_blocks {Opts : Type}
    (main : str → option str → list str → list str → option str → Opts
            → outcome Counters)
    (src_base : str) (out_base outfile : option str) (options : Opts)
    (pyc_paths : list str) (numproc : Z) (fq : Queue.t (option str))
    (sched : list pevent) (st : pstate) (i : nat) (acc : Counters) :
  (1 < numproc)%Z →
  fill pyc_paths numproc = Some fq →
  st = run Opts main src_base out_base outfile options sched (start numproc fq) →
  procs st !! i = Some (Running acc) →
  is_Some (Queue.get (fqueue st))
  ∧ Queue.full (rqueue st) = false
  ∧ is_Some (pstep Opts main src_base out_base outfile options (Get i) st)
  ∧ length (Queue.items (rqueue st)) < Z.to_nat numproc.
Proof.
  intros Hn Hfill -> Hi.
  set (st := run _ _ _ _ _ _ _ _) in *.
  assert (Hinv : inv numproc st).
  { apply exec_inv. eapply start_inv; [lia|done]. }
  pose proof (publish_room _ _ _ _ Hinv Hi) as Hput.
  destruct (get_enabled main src_base out_base outfile options _ _ _ _ Hinv Hi)
    as (st' & Hst & Hlt).
  destruct Hinv as (Hlen & _ & Hperm & _).
  split; [|split; [|split]].
  - unfold Queue.get. destruct (Queue.items (fqueue st)); [simpl in Hlt; lia|].
    by eexists.
  - unfold Queue.put in Hput. by destruct (Queue.full (rqueue st)).
  - by eexists.
  - pose proof (published_running_length (procs st)) as Hc.
    pose proof (running_lookup _ _ _ Hi) as Hr.
    apply Permutation_length in Hperm. lia.
Qed.

Lemma parallel_worker_never_blocks_witness :
  let paths := [lit "a.pyc"; lit "b.pyc"] in
  let fq := Queue.mk 4%Z [Some (lit "a.pyc"); Some (lit "b.pyc"); None; None] in
  let st := run unit Demo.main (lit "lib") None None tt
              [Get 0; Get 0; Get 0] (start 2 fq) in
  ((1 < 2)%Z
   ∧ fill paths 2 = Some fq
   ∧ procs st !! 1 = Some (Running czero))
  ∧ is_Some (Queue.get (fqueue st))
  ∧ Queue.full (rqueue st) = false
  ∧ is_Some (pstep unit Demo.main (lit "lib") None None tt (Get 1) st)
  ∧ length (Queue.items (rqueue st)) < Z.to_nat 2.
Proof.
  intros paths fq st.
  split; [split; [lia|]; split; reflexivity|].
  apply (parallel_worker_never_blocks Demo.main (lit "lib") None None tt
           paths 2 fq [Get 0; Get 0; Get 0] st 1 czero).
  - lia.
  - reflexivity.
  - reflexivity.
  - reflexivity.
Defined.

(** X13: a parallel run is finite: of the events of any schedule at most
    [len(pyc_paths) + 2 * numproc] happen, since each of them takes an
    item from the work queue or ends a worker. *)
Theorem parallel_run_is_finite {Opts : Type}
    (main : str → option str → list str → list str → option str → Opts
            → outcome Counters)
    (src_base : str) (out_base outfile : option str) (options : Opts)
    (pyc_paths : list str) (numproc : Z) (fq : Queue.t (option str))
    (sched : list pevent) :
  (1 < numproc)%Z →
  fill pyc_paths numproc = Some fq →
  happened Opts main src_base out_base outfile options sched (start numproc fq)
  ≤ length pyc_paths + 2 * Z.to_nat numproc.
Proof.
  intros Hn Hfill.
  rewrite fill_spec in Hfill by lia. injection Hfill as <-.
  etrans; [apply happened_bound|]. simpl.
  rewrite length_app, length_map, length_replicate, running_replicate. lia.
Qed.

Lemma parallel_run_is_finite_witness :
  let paths := [lit "a.pyc"; lit "b.pyc"] in
  let fq := Queue.mk 4%Z [Some (lit "a.pyc"); Some (lit "b.pyc"); None; None] in
  let sched := [Get 0; Get 1; Get 0; Get 0; Get 1; Get 1; Throw 0 Empty; Get 1] in
  ((1 < 2)%Z ∧ fill paths 2 = Some fq)
  ∧ happened unit Demo.main (lit "lib") None None tt sched (start 2 fq)
    ≤ length paths + 2 * Z.to_nat 2.
Proof.
  intros paths fq sched.
  split; [split; [lia|reflexivity]|].
  apply (parallel_run_is_finite Demo.main (lit "lib") None None tt
           paths 2 fq sched).
  - lia.
  - reflexivity.
Defined.

(** X14: when [main] returns for every single path, the summary of
    parallel mode is the sum of the tuples [main] returns for the paths,
    whichever worker takes which path and in whichever order the workers
    take their turns: every schedule of turns either leaves a worker
    unfinished or prints this sum, and some schedule prints it. *)
Theorem parallel_summary_whatever_schedule {Opts : Type}
    (main : str → option str → list str → list str → option str → Opts
            → outcome Counters)
    (src_base : str) (out_base outfile : option str) (options : Opts)
    (g : str → Counters) (pyc_paths : list str) (numproc : Z) :
  (1 < numproc)%Z →
  (∀ f, main src_base out_base [f] [] outfile options = Ret (g f)) →
  (∀ sched, forallb is_get sched = true →
     parallel_dispatch Opts main src_base out_base outfile options
       pyc_paths numproc sched
     = ([PrintSummary (csum (map g pyc_paths))], Ok tt)
     ∨ parallel_dispatch Opts main src_base out_base outfile options
         pyc_paths numproc sched
       = ([], Waiting))
  ∧ ∃ sched,
      forallb is_get sched = true
      ∧ parallel_dispatch Opts main src_base out_base outfile options
          pyc_paths numproc sched
        = ([PrintSummary (csum (map g pyc_paths))], Ok tt).
Proof.
  intros Hn Hmain.
  assert (H0 : (0 ≤ numproc)%Z) by lia.
  pose proof (fill_spec pyc_paths numproc H0) as Hfill.
  pose proof (start_inv _ _ _ H0 Hfill) as Hstart.
  pose proof (start_inv_work g _ _ _ H0 Hfill) as Hwork.
  set (fq := Queue.mk _ _) in *.
  assert (Hdone : ∀ sched, forallb is_get sched = true →
    forallb exited
      (procs (run Opts main src_base out_base outfile options sched
                (start numproc fq))) = true →
    parallel_dispatch Opts main src_base out_base outfile options pyc_paths
      numproc sched
    = ([PrintSummary (csum (map g pyc_paths))], Ok tt)).
  { intros sched Hg Hex. unfold parallel_dispatch, collect. rewrite Hfill, Hex.
    unfold emit. do 3 f_equal.
    apply (work_total g pyc_paths numproc); [lia| | |done].
    - by apply exec_inv.
    - by apply exec_inv_work. }
  split.
  - intros sched Hg.
    destruct (forallb exited
      (procs (run Opts main src_base out_base outfile options sched
                (start numproc fq)))) eqn:Hex.
    + left. by apply Hdone.
    + right. unfold parallel_dispatch, collect. by rewrite Hfill, Hex.
  - destruct (completion main src_base out_base outfile options _ _ _
                (Nat.le_refl _) Hstart) as (sched & Hg & Hex).
    exists sched. split; [done|]. by apply Hdone.
Qed.

Lemma parallel_summary_whatever_schedule_witness :
  let paths := [lit "a.pyc"; lit "b.pyc"; lit "c.pyc"] in
  let main := fun (_ : str) (_ : option str) (fs _ : list str) (_ : option str)
                  (_ : unit) =>
                Ret (Z.of_nat (length fs), Z.of_nat (length fs), 0, 0)%Z in
  let g := fun _ : str => (1, 1, 0, 0)%Z in
  ((1 < 2)%Z
   ∧ ∀ f, main (lit "lib") None [f] [] None tt = Ret (g f))
  ∧ (∀ sched, forallb is_get sched = true →
       parallel_dispatch unit main (lit "lib") None None tt paths 2 sched
       = ([PrintSummary (csum (map g paths))], Ok tt)
       ∨ parallel_dispatch unit main (lit "lib") None None tt paths 2 sched
         = ([], Waiting))
  ∧ ∃ sched,
      forallb is_get sched = true
      ∧ parallel_dispatch unit main (lit "lib") None None tt paths 2 sched
        = ([PrintSummary (csum (map g paths))], Ok tt).
Proof.
  intros paths main g.
  split; [split; [lia|intros f; reflexivity]|].
  apply (parallel_summary_whatever_schedule main (lit "lib") None None tt g paths 2).
  - lia.
  - intros f. reflexivity.
Defined.

Lemma main_bin_guarded_parallel {Opts : Type}
    (main : str → option str → list str → list str → option str → Opts
            → outcome Counters)
    (status_msg : Counters → str)
    (isdir : str → bool) (walk : str → list (str * list str * list str))
    (kwargs : option str → bool * bool → Opts)
    (parent : option exn) (s : Settings Opts) (sched : list pevent)
    (src_base : str) (rel : list str) :
  path_reduce (input_paths Opts isdir walk s) = Some (src_base, rel) →
  rel ≠ [] → (1 < numproc_opt s)%Z →
  main_bin_guarded Opts main status_msg isdir walk kwargs parent s sched
  = (when (timestamp s) (emit PrintTimestamp) ;;;
     parent_guard parent
       (parallel_dispatch Opts main src_base
          (resolve_out isdir (outfile_opt s) rel).1
          (resolve_out isdir (outfile_opt s) rel).2
          (options s) rel (numproc_opt s) sched) ;;;
     when (timestamp s) (emit PrintTimestamp)).
Proof.
  intros Hr Hne Hn. unfold main_bin_guarded. rewrite Hr.
  destruct rel as [|f rel]; [done|]. cbn [truthy negb when].
  destruct (resolve_out isdir (outfile_opt s) (f :: rel)) as [ob outf].
  assert ((numproc_opt s <=? 1)%Z = false) as -> by lia.
  cbn [fst snd].
  unfold m_bind at 1. unfold m_ret. cbn [app].
  by destruct (_ ;;; _).
Qed.

Lemma main_bin_guarded_none {Opts : Type}
    (main : str → option str → list str → list str → option str → Opts
            → outcome Counters)
    (status_msg : Counters → str)
    (isdir : str → bool) (walk : str → list (str * list str * list str))
    (kwargs : option str → bool * bool → Opts)
    (s : Settings Opts) (sched : list pevent) :
  main_bin_guarded Opts main status_msg isdir walk kwargs None s sched
  = main_bin Opts main status_msg isdir walk kwargs s sched.
Proof. reflexivity. Qed.

(** X15: in parallel mode [main_bin] prints the summary line once all
    workers have ended, be there one path or many, between the timestamps
    asked for, and returns; it prints the sum of the tuples the workers
    published. When [KeyboardInterrupt] or [OSError] reaches the parent
    inside the parallel block, no summary is printed and [main_bin] goes
    on to its end; any other exception there leaves [main_bin]. *)
Theorem parallel_main_bin_prints_summary {Opts : Type}
    (main : str → option str → list str → list str → option str → Opts
            → outcome Counters)
    (status_msg : Counters → str)
    (isdir : str → bool) (walk : str → list (str * list str * list str))
    (kwargs : option str → bool * bool → Opts)
    (s : Settings Opts) (sched : list pevent)
    (src_base : str) (rel : list str) :
  path_reduce (input_paths Opts isdir walk s) = Some (src_base, rel) →
  rel ≠ [] →
  (1 < numproc_opt s)%Z →
  ∃ fq,
    fill rel (numproc_opt s) = Some fq
    ∧ (∀ st,
         st = run Opts main src_base (resolve_out isdir (outfile_opt s) rel).1
                (resolve_out isdir (outfile_opt s) rel).2 (options s) sched
                (start (numproc_opt s) fq) →
         main_bin_guarded Opts main status_msg isdir walk kwargs None s sched
         = if forallb exited (procs st)
           then (stamp s ++ [PrintSummary (csum (published (procs st)))] ++ stamp s,
                 Ok tt)
           else (stamp s, Waiting))
    ∧ (∀ e, e = KeyboardInterrupt ∨ e = OSError →
            main_bin_guarded Opts main status_msg isdir walk kwargs (Some e) s sched
            = (stamp s ++ stamp s, Ok tt))
    ∧ (∀ e, e ≠ KeyboardInterrupt → e ≠ OSError →
            main_bin_guarded Opts main status_msg isdir walk kwargs (Some e) s sched
            = (stamp s, Exc e)).
Proof.
  intros Hr Hne Hn.
  assert (H0 : (0 ≤ numproc_opt s)%Z) by lia.
  pose proof (fill_spec rel (numproc_opt s) H0) as Hfill.
  pose proof (start_inv _ _ _ H0 Hfill) as Hstart.
  set (fq := Queue.mk _ _) in *.
  exists fq. split; [done|]. split; [|split].
  - intros st ->.
    rewrite (main_bin_guarded_parallel _ _ _ _ _ _ _ _ _ _ Hr Hne Hn).
    apply (exec_inv main src_base (resolve_out isdir (outfile_opt s) rel).1
             (resolve_out isdir (outfile_opt s) rel).2 (options s) _ sched)
      in Hstart as (_ & _ & Hperm & _).
    unfold parent_guard, parallel_dispatch, collect, stamp. rewrite Hfill.
    destruct (forallb exited _).
    + rewrite drain_csum, cadd_zero_l, (csum_perm _ _ Hperm).
      by destruct (timestamp s).
    + by destruct (timestamp s).
  - intros e He.
    rewrite (main_bin_guarded_parallel _ _ _ _ _ _ _ _ _ _ Hr Hne Hn).
    unfold parent_guard, stamp.
    by destruct He as [-> | ->]; destruct (timestamp s).
  - intros e H1 H2.
    rewrite (main_bin_guarded_parallel _ _ _ _ _ _ _ _ _ _ Hr Hne Hn).
    unfold parent_guard, stamp.
    by destruct e; try done; destruct (timestamp s).
Qed.

Lemma parallel_main_bin_prints_summary_witness :
  let s := Demo.settings [lit "lib/a.pyc"] false 3 in
  let sched := [Get 2; Get 0; Get 1; Get 2] in
  (path_reduce (input_paths unit Demo.isdir Demo.walk s)
   = Some (lit "lib", [lit "a.pyc"])
   ∧ [lit "a.pyc"] ≠ []
   ∧ (1 < numproc_opt s)%Z)
  ∧ ∃ fq,
      fill [lit "a.pyc"] (numproc_opt s) = Some fq
      ∧ (∀ st,
           st = run unit Demo.main (lit "lib")
                  (resolve_out Demo.isdir (outfile_opt s) [lit "a.pyc"]).1
                  (resolve_out Demo.isdir (outfile_opt s) [lit "a.pyc"]).2
                  (options s) sched (start (numproc_opt s) fq) →
           main_bin_guarded unit Demo.main Demo.status_msg Demo.isdir Demo.walk
             Demo.kwargs None s sched
           = if forallb exited (procs st)
             then (stamp s ++ [PrintSummary (csum (published (procs st)))]
                   ++ stamp s, Ok tt)
             else (stamp s, Waiting))
      ∧ (∀ e, e = KeyboardInterrupt ∨ e = OSError →
              main_bin_guarded unit Demo.main Demo.status_msg Demo.isdir Demo.walk
                Demo.kwargs (Some e) s sched
              = (stamp s ++ stamp s, Ok tt))
      ∧ (∀ e, e ≠ KeyboardInterrupt → e ≠ OSError →
              main_bin_guarded unit Demo.main Demo.status_msg Demo.isdir Demo.walk
                Demo.kwargs (Some e) s sched
              = (stamp s, Exc e)).
Proof.
  intros s sched.
  split; [split; [reflexivity|]; split; [discriminate|simpl; lia]|].
  apply (parallel_main_bin_prints_summary Demo.main Demo.status_msg Demo.isdir
           Demo.walk Demo.kwargs s sched (lit "lib") [lit "a.pyc"]).
  - reflexivity.
  - discriminate.
  - simpl. lia.
Defined.

Example parallel_single_path_summary :
  main_bin_guarded unit Demo.main Demo.status_msg Demo.isdir Demo.walk Demo.kwargs
    None (Demo.settings [lit "lib/a.pyc"] false 3) [Get 2; Get 0; Get 1; Get 2]
  = ([PrintTimestamp; PrintSummary (1, 1, 0, 0)%Z; PrintTimestamp], Ok tt)
  ∧ main_bin_guarded unit Demo.main Demo.status_msg Demo.isdir Demo.walk
      Demo.kwargs (Some KeyboardInterrupt)
      (Demo.settings [lit "lib/a.pyc"] false 3) [Get 2; Get 0; Get 1; Get 2]
    = ([PrintTimestamp; PrintTimestamp], Ok tt).
Proof. by vm_compute. Qed.

(** ** The option loop *)

Section OptionLoopFacts.

Import OptionLoop.

Context (version : str) (int : str → option Z).

Local Abbreviation body := (OptionLoop.body version int).
Local Abbreviation loop := (OptionLoop.loop version int).

Ltac compute_term t := let v := eval vm_compute in t in change t with v.

(** Going through the branches of [body]: each goal keeps the test that
    chose its branch, and the option name is replaced by the name found. *)
Ltac body_branches :=
  unfold OptionLoop.body;
  repeat match goal with
         | |- (if ?b then _ else _) = _ → _ => destruct b eqn:?
         end.

Ltac name_found :=
  unfold is_opt in *; simpl existsb in *;
  repeat match goal with
         | E : _ || _ = true |- _ => apply orb_true_iff in E as [E|E]
         | E : false = true |- _ => discriminate E
         | E : bool_decide (_ = _) = true |- _ =>
             apply bool_decide_eq_true in E; subst
         end.

Lemma loop_app (st : state) (pre post : list (str * str)) :
  loop st (pre ++ post)
  = match loop st pre with
    | Next st1 => loop st1 post
    | r => r
    end.
Proof.
  revert st. induction pre as [|[opt val] pre IH]; intros st; simpl; [done|].
  destruct (body st opt val); [apply IH|done..].
Qed.

Lemma loop_snoc (st st' : state) (opts : list (str * str)) (opt val : str) :
  loop st (opts ++ [(opt, val)]) = Next st' →
  ∃ st1, loop st opts = Next st1 ∧ body st1 opt val = Next st'.
Proof.
  rewrite loop_app. destruct (loop st opts) as [st1| |]; [|done..].
  simpl. destruct (body st1 opt val) eqn:E; [|done..].
  intros [= <-]. by exists st1.
Qed.

Lemma values_of_snoc (names : list string) (opts : list (str * str))
    (opt val : str) :
  values_of names (opts ++ [(opt, val)])
  = values_of names opts ++ (if is_opt opt names then [val] else []).
Proof.
  unfold values_of. rewrite List.filter_app, map_app. simpl.
  by destruct (is_opt opt names).
Qed.

Lemma body_showasm (st st' : state) (opt val : str) :
  body st opt val = Next st' →
  options st' !! "showasm"
  = if is_opt opt ["--asm"; "-a"]
    then match options st !! "showasm" with
         | Some PNone => Some (PStr (lit "after"))
         | Some _ => Some (PStr (lit "both"))
         | None => None
         end
    else options st !! "showasm".
Proof.
  revert st'. intros st'. body_branches; try discriminate;
    name_found;
    repeat match goal with
           | |- context [existsb ?f ?l] => compute_term (existsb f l)
           end; cbv iota.
  all: unfold with_showast.
  all: repeat case_match; try discriminate.
  all: intros [= <-]; simpl; rewrite ?lookup_insert_ne by done; try done.
  all: try by rewrite lookup_insert_eq.
Qed.

Lemma body_do_verify (st st' : state) (opt val : str) :
  body st opt val = Next st' →
  options st' !! "do_verify"
  = match verify_effect opt with
    | Some v => Some v
    | None => options st !! "do_verify"
    end.
Proof.
  revert st'. intros st'. body_branches; try discriminate;
    name_found;
    repeat match goal with
           | |- context [verify_effect ?o] => compute_term (verify_effect o)
           end; cbv iota.
  all: unfold with_showast.
  all: repeat case_match; try discriminate.
  all: intros [= <-]; simpl; rewrite ?lookup_insert_ne by done; try done.
  all: try by rewrite lookup_insert_eq.
Qed.

Lemma body_variables (st st' : state) (opt val : str) :
  body st opt val = Next st' →
  source_paths st'
  = source_paths st ++ (if is_opt opt ["--compile"; "-c"] then [val] else [])
  ∧ outfile st' = (if is_opt opt ["-o"] then Some val else outfile st)
  ∧ (if is_opt opt ["-p"] then int val = Some (numproc st')
     else numproc st' = numproc st)
  ∧ timestamp st' = (is_opt opt ["--timestamp"; "-d"] || timestamp st)
  ∧ recurse_dirs st' = (is_opt opt ["--recurse"; "-r"] || recurse_dirs st).
Proof.
  revert st'. intros st'. body_branches; try discriminate;
    name_found;
    repeat match goal with
           | |- context [existsb ?f ?l] => compute_term (existsb f l)
           end; cbv iota.
  all: unfold with_showast.
  all: repeat case_match; try discriminate.
  all: intros [= <-]; simpl; by rewrite ?app_nil_r.
Qed.

(** What the loop keeps true of [options]: ["showasm"] is there, and
    ["showast"], when there, is a dictionary. *)
Lemma body_keys (st st' : state) (opt val : str) :
  is_Some (options st !! "showasm") →
  (∀ v, options st !! "showast" = Some v → ∃ d, v = PAst d) →
  body st opt val = Next st' →
  is_Some (options st' !! "showasm")
  ∧ (∀ v, options st' !! "showast" = Some v → ∃ d, v = PAst d).
Proof.
  intros [a Ha] Hast. revert st'. intros st'. body_branches; try discriminate;
    name_found.
  all: unfold with_showast.
  all: repeat case_match; try discriminate.
  all: intros [= <-]; simpl; rewrite ?lookup_insert_ne by done.
  all: split; [by (eexists; first [exact Ha | apply lookup_insert_eq])|].
  all: try done.
  all: intros v; rewrite ?lookup_insert_ne by done;
       first [ rewrite lookup_insert_eq; intros [= <-]; by eexists
             | apply Hast ].
Qed.

Lemma body_fail (st : state) (opt val : str) (e : loop_exn) :
  is_Some (options st !! "showasm") →
  (∀ v, options st !! "showast" = Some v → ∃ d, v = PAst d) →
  body st opt val = Fail e →
  e = ValueError val ∧ is_opt opt ["-p"] = true ∧ int val = None.
Proof.
  intros [a Ha] Hast. body_branches; try discriminate.
  all: unfold with_showast.
  all: try rewrite Ha.
  all: try (destruct (options st !! "showast") as [v|] eqn:Hv; simpl;
            [ assert (∃ d, v = PAst d) as [d ->]
                by (apply Hast; first [exact Hv | reflexivity]) |];
            discriminate).
  destruct (int val) eqn:Hint; [discriminate|]. by intros [= <-].
Qed.

(** X16: the loop counts the [-a]/[--asm] options into
    [options["showasm"]]: without one it stays [None], with one it is
    "after", and with two or more it is "both". *)
Theorem option_loop_counts_asm (st st' : state) (opts : list (str * str)) :
  loop st opts = Next st' →
  options st !! "showasm" = Some PNone →
  options st' !! "showasm"
  = Some (match length (values_of ["--asm"; "-a"] opts) with
          | 0 => PNone
          | 1 => PStr (lit "after")
          | _ => PStr (lit "both")
          end).
Proof.
  revert st'. induction opts as [|[opt val] opts IH] using rev_ind;
    intros st' H Hinit.
  { injection H as <-. done. }
  apply loop_snoc in H as (st1 & H1 & Hb).
  specialize (IH _ H1 Hinit).
  rewrite (body_showasm _ _ _ _ Hb), IH, values_of_snoc, length_app.
  destruct (is_opt opt ["--asm"; "-a"]); simpl.
  - by destruct (length (values_of ["--asm"; "-a"] opts)) as [|[|n]].
  - by rewrite Nat.add_0_r.
Qed.

Lemma loop_no_verify_effect (st st' : state) (post : list (str * str)) :
  Forall (fun ov => verify_effect ov.1 = None) post →
  loop st post = Next st' →
  options st' !! "do_verify" = options st !! "do_verify".
Proof.
  intros Hpost. revert st. induction Hpost as [|[opt val] post Hx _ IH];
    intros st; simpl.
  { by intros [= <-]. }
  destruct (body st opt val) as [st1| |] eqn:Hb; [|done..].
  intros H. rewrite (IH _ H), (body_do_verify _ _ _ _ Hb).
  simpl in Hx. by rewrite Hx.
Qed.

(** X17: [options["do_verify"]] is what the last option that touches it
    left there: a [--verify], [--syntax-verify] or [--verify-run] given
    after the last of [-a], [-t], [-T] and their long forms switches
    verification on again, and any of these given after the last verify
    option leaves [None]. *)
Theorem option_loop_last_verify_option_wins (st st' : state)
    (pre post : list (str * str)) (opt val : str) (v : pyval) :
  loop st (pre ++ (opt, val) :: post) = Next st' →
  verify_effect opt = Some v →
  Forall (fun ov => verify_effect ov.1 = None) post →
  options st' !! "do_verify" = Some v.
Proof.
  intros H Hv Hpost. rewrite loop_app in H.
  destruct (loop st pre) as [st1| |]; [|done..]. simpl in H.
  destruct (body st1 opt val) as [st2| |] eqn:Hb; [|done..].
  rewrite (loop_no_verify_effect _ _ _ Hpost H), (body_do_verify _ _ _ _ Hb).
  by rewrite Hv.
Qed.

(** X18: of the option names [getopt] accepts and returns, the loop has
    a branch for every one but "--showgrammar": that option, and no
    other, ends in the last branch, which writes the name to standard
    error, prints the usage text and exits with status 1. *)
Theorem option_loop_unhandled_option :
  lit "--showgrammar" ∈ getopt_names
  ∧ Forall
      (fun opt =>
         ∀ st val,
           body st opt val = Stop [StderrWrite opt; Print __doc__] 1
           ↔ opt = lit "--showgrammar")
      getopt_names.
Proof.
  split.
  { compute_term getopt_names. apply list_elem_of_In. simpl.
    repeat (first [ left; reflexivity | right ]). }
  compute_term getopt_names.
  repeat match goal with
         | |- Forall _ (_ :: _) => constructor
         | |- Forall _ [] => constructor
         end.
  all: intros st val; unfold OptionLoop.body;
       repeat match goal with
              | |- context [is_opt ?o ?l] => compute_term (is_opt o l)
              end; cbv iota; unfold with_showast.
  all: split; [|try discriminate; done].
  all: try done.
  all: repeat case_match; discriminate.
Qed.

(** X19: [-h], [--help], [-V] and [--version] end the run with exit
    status 0 as soon as the loop reaches them, after printing the usage
    text or the version line; the options after them are not looked at,
    not even one that is not handled or a [-p] that is no number. *)
Theorem option_loop_help_and_version (st st1 : state)
    (pre post : list (str * str)) (opt val : str) :
  loop st pre = Next st1 →
  (is_opt opt ["-h"; "--help"] = true →
   loop st (pre ++ (opt, val) :: post) = Stop [Print __doc__] 0)
  ∧ (is_opt opt ["-V"; "--version"] = true →
     loop st (pre ++ (opt, val) :: post)
     = Stop [Print (lit "uncompyle6" ++ lit " " ++ version)] 0).
Proof.
  intros Hpre.
  assert (Hstop : ∀ out c, body st1 opt val = Stop out c →
                           loop st (pre ++ (opt, val) :: post) = Stop out c).
  { intros out c Hb. rewrite loop_app, Hpre.
    change (loop st1 ((opt, val) :: post))
      with (match body st1 opt val with
            | Next st' => loop st' post
            | r => r
            end).
    by rewrite Hb. }
  split; intros H; apply Hstop; unfold OptionLoop.body.
  - by rewrite H.
  - assert (is_opt opt ["-h"; "--help"] = false) as ->.
    { revert H. unfold is_opt. simpl existsb. intros H.
      apply orb_true_iff in H as [H|H].
      - apply bool_decide_eq_true in H. by subst.
      - rewrite orb_false_r in H. apply bool_decide_eq_true in H. by subst. }
    by rewrite H.
Qed.

(** X20: when the loop runs to its end, [source_paths] has the values of
    the [-c]/[--compile] options appended in the order given, [outfile]
    is the value of the last [-o], and [numproc] is [int] of the value of
    the last [-p]; without such an option the variable is as before. *)
Theorem option_loop_collects_values (st st' : state) (opts : list (str * str)) :
  loop st opts = Next st' →
  source_paths st' = source_paths st ++ values_of ["--compile"; "-c"] opts
  ∧ outfile st' = match last (values_of ["-o"] opts) with
                  | Some v => Some v
                  | None => outfile st
                  end
  ∧ match last (values_of ["-p"] opts) with
    | Some v => int v = Some (numproc st')
    | None => numproc st' = numproc st
    end.
Proof.
  revert st'. induction opts as [|[opt val] opts IH] using rev_ind; intros st' H.
  { injection H as <-. by rewrite app_nil_r. }
  apply loop_snoc in H as (st1 & H1 & Hb).
  destruct (IH _ H1) as (IHs & IHo & IHn).
  destruct (body_variables _ _ _ _ Hb) as (Hs & Ho & Hn & _).
  rewrite !values_of_snoc. split; [|split].
  - by rewrite Hs, IHs, app_assoc.
  - rewrite Ho. destruct (is_opt opt ["-o"]).
    + by rewrite last_snoc.
    + by rewrite app_nil_r.
  - destruct (is_opt opt ["-p"]).
    + by rewrite last_snoc.
    + rewrite app_nil_r. destruct (last (values_of ["-p"] opts)); congruence.
Qed.

Lemma values_of_cons (names : list string) (opts : list (str * str))
    (opt val : str) :
  values_of names ((opt, val) :: opts)
  = (if is_opt opt names then [val] else []) ++ values_of names opts.
Proof. unfold values_of. cbn [List.filter fst]. by destruct (is_opt opt names). Qed.

Lemma loop_fail (st : state) (opts : list (str * str)) (e : loop_exn) :
  is_Some (options st !! "showasm") →
  (∀ v, options st !! "showast" = Some v → ∃ d, v = PAst d) →
  loop st opts = Fail e →
  ∃ v, e = ValueError v ∧ v ∈ values_of ["-p"] opts ∧ int v = None.
Proof.
  revert st. induction opts as [|[opt val] opts IH]; intros st Ha Hast; [done|].
  change (loop st ((opt, val) :: opts))
    with (match body st opt val with
          | Next st' => loop st' opts
          | r => r
          end).
  rewrite values_of_cons.
  destruct (body st opt val) as [st1| |e'] eqn:Hb; [|done|].
  - intros H. destruct (body_keys _ _ _ _ Ha Hast Hb) as [Ha1 Hast1].
    destruct (IH _ Ha1 Hast1 H) as (v & -> & Hv & Hint).
    exists v. split; [done|]. split; [|done].
    apply elem_of_app. by right.
  - intros [= ->]. destruct (body_fail _ _ _ _ Ha Hast Hb) as (-> & Hp & Hint).
    exists val. split; [done|]. split; [|done].
    rewrite Hp. apply elem_of_app. left. apply elem_of_cons. by left.
Qed.

(** X21: started as lines 81-107 start it, the loop raises no exception
    but the [ValueError] of [int] on the value of a [-p] option: the key
    "showasm" it reads is always there, and what it keeps under "showast"
    is always a dictionary. *)
Theorem option_loop_only_int_fails (o : option str) (r : bool)
    (opts : list (str * str)) (e : loop_exn) :
  loop (initial o r) opts = Fail e →
  ∃ v, e = ValueError v ∧ v ∈ values_of ["-p"] opts ∧ int v = None.
Proof.
  apply loop_fail.
  - by eexists.
  - intros v. unfold initial. simpl. by rewrite lookup_singleton_ne.
Qed.

End OptionLoopFacts.

Example option_loop_run :
  match OptionLoop.loop (lit "3.9.0") Demo.int (OptionLoop.initial None false)
          [(lit "-a", lit ""); (lit "-o", lit "/tmp"); (lit "--verify", lit "");
           (lit "-p", lit "4"); (lit "--asm", lit ""); (lit "-c", lit "x.py")]
  with
  | OptionLoop.Next st =>
      OptionLoop.options st !! "showasm" = Some (OptionLoop.PStr (lit "both"))
      ∧ OptionLoop.options st !! "do_verify" = Some OptionLoop.PNone
      ∧ OptionLoop.outfile st = Some (lit "/tmp")
      ∧ OptionLoop.numproc st = 4%Z
      ∧ OptionLoop.source_paths st = [lit "x.py"]
  | _ => False
  end.
Proof. by vm_compute. Qed.

Lemma option_loop_counts_asm_witness :
  let opts := [(lit "-a", lit ""); (lit "--verify", lit ""); (lit "--asm", lit "")] in
  let st := OptionLoop.initial None false in
  let st' := match OptionLoop.loop (lit "3.9.0") Demo.int st opts with
             | OptionLoop.Next s => s
             | _ => st
             end in
  (OptionLoop.loop (lit "3.9.0") Demo.int st opts = OptionLoop.Next st'
   ∧ OptionLoop.options st !! "showasm" = Some OptionLoop.PNone)
  ∧ OptionLoop.options st' !! "showasm"
    = Some (match length (OptionLoop.values_of ["--asm"; "-a"] opts) with
            | 0 => OptionLoop.PNone
            | 1 => OptionLoop.PStr (lit "after")
            | _ => OptionLoop.PStr (lit "both")
            end).
Proof.
  intros opts st st'.
  split; [split; reflexivity|].
  apply (option_loop_counts_asm (lit "3.9.0") Demo.int st st' opts).
  - reflexivity.
  - reflexivity.
Defined.

Lemma option_loop_last_verify_option_wins_witness :
  let pre := [(lit "-a", lit "")] in
  let post := [(lit "-o", lit "/tmp"); (lit "-d", lit "")] in
  let st := OptionLoop.initial None false in
  let st' := match OptionLoop.loop (lit "3.9.0") Demo.int st
                     (pre ++ (lit "--verify", lit "") :: post) with
             | OptionLoop.Next s => s
             | _ => st
             end in
  (OptionLoop.loop (lit "3.9.0") Demo.int st
     (pre ++ (lit "--verify", lit "") :: post) = OptionLoop.Next st'
   ∧ OptionLoop.verify_effect (lit "--verify")
     = Some (OptionLoop.PStr (lit "strong"))
   ∧ Forall (fun ov => OptionLoop.verify_effect ov.1 = None) post)
  ∧ OptionLoop.options st' !! "do_verify" = Some (OptionLoop.PStr (lit "strong")).
Proof.
  intros pre post st st'.
  assert (Hpost : Forall (fun ov => OptionLoop.verify_effect ov.1 = None) post).
  { repeat constructor. }
  split; [split; [reflexivity|]; split; [reflexivity|exact Hpost]|].
  exact (option_loop_last_verify_option_wins (lit "3.9.0") Demo.int st st'
           pre post (lit "--verify") (lit "") (OptionLoop.PStr (lit "strong"))
           eq_refl eq_refl Hpost).
Defined.

Lemma option_loop_help_and_version_witness :
  let pre := [(lit "-a", lit ""); (lit "-o", lit "/tmp")] in
  let post := [(lit "--showgrammar", lit ""); (lit "-p", lit "many")] in
  let st := OptionLoop.initial None false in
  let st1 := match OptionLoop.loop (lit "3.9.0") Demo.int st pre with
             | OptionLoop.Next s => s
             | _ => st
             end in
  OptionLoop.loop (lit "3.9.0") Demo.int st pre = OptionLoop.Next st1
  ∧ (OptionLoop.is_opt (lit "--help") ["-h"; "--help"] = true →
     OptionLoop.loop (lit "3.9.0") Demo.int st
       (pre ++ (lit "--help", lit "") :: post)
     = OptionLoop.Stop [Print __doc__] 0)
  ∧ (OptionLoop.is_opt (lit "--help") ["-V"; "--version"] = true →
     OptionLoop.loop (lit "3.9.0") Demo.int st
       (pre ++ (lit "--help", lit "") :: post)
     = OptionLoop.Stop [Print (lit "uncompyle6" ++ lit " " ++ lit "3.9.0")] 0).
Proof.
  intros pre post st st1.
  split; [reflexivity|].
  apply (option_loop_help_and_version (lit "3.9.0") Demo.int st st1 pre post
           (lit "--help") (lit "")).
  reflexivity.
Defined.

Lemma option_loop_collects_values_witness :
  let opts := [(lit "-c", lit "x.py"); (lit "-o", lit "out"); (lit "-p", lit "4");
               (lit "--compile", lit "y.py"); (lit "-o", lit "-");
               (lit "-p", lit "12")] in
  let st := OptionLoop.initial None false in
  let st' := match OptionLoop.loop (lit "3.9.0") Demo.int st opts with
             | OptionLoop.Next s => s
             | _ => st
             end in
  OptionLoop.loop (lit "3.9.0") Demo.int st opts = OptionLoop.Next st'
  ∧ OptionLoop.source_paths st'
    = OptionLoop.source_paths st ++ OptionLoop.values_of ["--compile"; "-c"] opts
  ∧ OptionLoop.outfile st'
    = match last (OptionLoop.values_of ["-o"] opts) with
      | Some v => Some v
      | None => OptionLoop.outfile st
      end
  ∧ match last (OptionLoop.values_of ["-p"] opts) with
    | Some v => Demo.int v = Some (OptionLoop.numproc st')
    | None => OptionLoop.numproc st' = OptionLoop.numproc st
    end.
Proof.
  intros opts st st'.
  split; [reflexivity|].
  apply (option_loop_collects_values (lit "3.9.0") Demo.int st st' opts).
  reflexivity.
Defined.

Lemma option_loop_only_int_fails_witness :
  let opts := [(lit "-a", lit ""); (lit "-p", lit "four"); (lit "-t", lit "x")] in
  OptionLoop.loop (lit "3.9.0") Demo.int (OptionLoop.initial None false) opts
  = OptionLoop.Fail (OptionLoop.ValueError (lit "four"))
  ∧ ∃ v, OptionLoop.ValueError (lit "four") = OptionLoop.ValueError v
         ∧ v ∈ OptionLoop.values_of ["-p"] opts
         ∧ Demo.int v = None.
Proof.
  intros opts.
  split; [reflexivity|].
  apply (option_loop_only_int_fails (lit "3.9.0") Demo.int None false opts
           (OptionLoop.ValueError (lit "four"))).
  reflexivity.
Defined.
